(** * Roll the Dice: the game root of [src/pages/index.js]

    A shallow embedding of the stateful root component [App] and of the
    JavaScript built-ins its handlers rely on, followed by the properties
    of the game that the handlers establish.

    Layout: the JavaScript values and built-ins ([JS]), the component state
    and its handlers, the timers and the event loop, what the render shows,
    and then the theorems: first the properties of the handlers one by
    one, then further properties of the reachable states. *)

From Stdlib Require Import ZArith String Ascii List Lia.
From stdpp Require Import base tactics option numbers list strings gmap.

Local Open Scope Z_scope.

(** ** JavaScript values and built-ins *)

Module JS.

(** The last digit of a fraction: any digit but 0. *)
Inductive NonZeroDigit : Type := D1 | D2 | D3 | D4 | D5 | D6 | D7 | D8 | D9.

Definition digit_of (d : NonZeroDigit) : Z :=
  match d with
  | D1 => 1 | D2 => 2 | D3 => 3 | D4 => 4 | D5 => 5
  | D6 => 6 | D7 => 7 | D8 => 8 | D9 => 9
  end.

(** The numbers the component stores: [maxRolls] starts as [Infinity], the
    custom limit is whatever [Number(e.target.value)] delivers, and
    [parseInt] yields an integer, [-0] or [NaN].

    [Number::toString] gives every finite number its decimal, the
    shortest one that reads back as the number, and no two numbers have
    the same; a finite number is represented by that decimal, the one
    JavaScript prints for it.  [Int z] is the integer [z], with [Int 0]
    for [+0]; [NegZero] is [-0]; [Frac neg q d f] is the number with
    [f >= 1] digits after the point, the last of which is [d]:
    [(10 q + d) / 10 ^ f], negated when [neg] is set.  So 2.5 is
    [Frac false 2 D5 1], -0.5 is [Frac true 0 D5 1], 1.5e-7 is
    [Frac false 1 D5 8] and 1e21 is [Int (10 ^ 21)].  Every decimal has
    exactly one representation.

    Every double is among these values.  The type also has decimals that
    JavaScript prints for no double, such as those of more than 17
    digits; the definitions act on them as on the others, the theorems
    hold for them as well, and the examples use doubles only.  As a
    quantity [Int z] counts as [z]: below 2^53 that is the double itself,
    above it the decimal of a double may differ from the double past the
    17th digit, which only a roll counter beyond 2^53 could tell. *)
Inductive Number : Type :=
| NaN
| Infinity
| NegInfinity
| Int (z : Z)
| NegZero
| Frac (neg : bool) (q : N) (d : NonZeroDigit) (f : positive).

#[global] Instance NonZeroDigit_eq_dec : EqDecision NonZeroDigit.
Proof. solve_decision. Defined.

#[global] Instance Number_eq_dec : EqDecision Number.
Proof. solve_decision. Defined.

(** The digits of a fraction, as an integer: [10 q + d]. *)
Definition significand (q : N) (d : NonZeroDigit) : Z := 10 * Z.of_N q + digit_of d.

Definition sign_of (neg : bool) : Z := if neg then -1 else 1.

(** [ToBoolean] on a number: [NaN], [0] and [-0] are falsy. *)
Definition truthy (n : Number) : bool :=
  match n with
  | NaN | Int 0 | NegZero => false
  | _ => true
  end.

(** [a || b]. *)
Definition or (a b : Number) : Number := if truthy a then a else b.

(** A finite number as a numerator over a power of ten. *)
Definition scaled (x : Number) : option (Z * Z) :=
  match x with
  | Int z => Some (z, 0)
  | NegZero => Some (0, 0)
  | Frac neg q d f => Some (sign_of neg * significand q d, Z.pos f)
  | _ => None
  end.

(** [a >= b]: false as soon as one side is [NaN]. *)
Definition ge (a b : Number) : bool :=
  match a, b with
  | NaN, _ | _, NaN => false
  | Infinity, _ => true
  | _, NegInfinity => true
  | NegInfinity, _ => false
  | _, Infinity => false
  | Int x, Int y => y <=? x
  | _, _ =>
      match scaled a, scaled b with
      | Some (x, i), Some (y, j) => y * 10 ^ i <=? x * 10 ^ j
      | _, _ => false
      end
  end.

(** [a <= b], which on numbers is [b >= a]. *)
Definition le (a b : Number) : bool := ge b a.

(** [Object.is] on numbers ([SameValue]): [NaN] is the same as [NaN], [+0]
    and [-0] are not the same, and otherwise a number is the same as
    itself only. *)
Definition same (a b : Number) : bool :=
  match a, b with
  | NaN, NaN => true
  | Int 0, NegZero | NegZero, Int 0 => false
  | _, _ => bool_decide (a = b)
  end.

(** *** [Number::toString] *)

Definition digit_char (d : Z) : ascii := ascii_of_nat (48 + Z.to_nat d).

(** The decimal digits of [n], most significant first, in front of [rest]. *)
Fixpoint digits_from (fuel : nat) (n : Z) (rest : list Z) : list Z :=
  match fuel with
  | O => rest
  | S fuel' =>
      let rest' := n mod 10 :: rest in
      if n / 10 =? 0 then rest' else digits_from fuel' (n / 10) rest'
  end.

Definition digits (n : Z) : list Z :=
  digits_from (S (Z.to_nat (Z.log2 n))) n [].

(** The characters of the digits [ds], followed by [rest]. *)
Fixpoint print (ds : list Z) (rest : string) : string :=
  match ds with
  | [] => rest
  | d :: ds' => String (digit_char d) (print ds' rest)
  end.

Definition decimal (n : Z) : string := print (digits n) EmptyString.

(** The digits without the zeros at the end. *)
Fixpoint strip_zeros (ds : list Z) : list Z :=
  match ds with
  | [] => []
  | d :: ds' =>
      match strip_zeros ds' with
      | [] => if d =? 0 then [] else [d]
      | r => d :: r
      end
  end.

(** The text of the positive number [s * 10 ^ (n - k)], given the digits
    of [s], of which there are [k] and the last of which is not 0.  With [n]
    from -5 to 21 it is plain decimal: the digits and [n - k] zeros when
    [k <= n], the first [n] digits, a point and the others when
    [0 < n < k], and "0.", [-n] zeros and the digits when [n <= 0].
    Otherwise it is exponent notation: the first digit, a point and the
    other digits if there are any, "e", the sign of [n - 1] and its
    decimal. *)
Definition print_finite (s : list Z) (n : Z) : string :=
  let k := Z.of_nat (length s) in
  if (-5 <=? n) && (n <=? 21) then
    if k <=? n then print s (print (replicate (Z.to_nat (n - k)) 0) EmptyString)
    else if 0 <? n then
      print (take (Z.to_nat n) s) (String "." (print (drop (Z.to_nat n) s) EmptyString))
    else
      String "0" (String "." (print (replicate (Z.to_nat (- n)) 0) (print s EmptyString)))
  else
    let c := n - 1 in
    let exponent :=
      String "e" (String (if c <? 0 then "-"%char else "+"%char) (decimal (Z.abs c))) in
    match s with
    | [] => exponent
    | [d] => print [d] exponent
    | d :: s' => print [d] (String "." (print s' exponent))
    end.

(** [ToString] of a number: both zeros print as "0", a negative number as
    "-" and the text of its magnitude. *)
Definition ToString (x : Number) : string :=
  match x with
  | NaN => "NaN"
  | Infinity => "Infinity"
  | NegInfinity => "-Infinity"
  | NegZero => "0"
  | Int z =>
      if z =? 0 then "0"
      else
        let ds := digits (Z.abs z) in
        let text := print_finite (strip_zeros ds) (Z.of_nat (length ds)) in
        if z <? 0 then String "-" text else text
  | Frac neg q d f =>
      let s := digits (significand q d) in
      let text := print_finite s (Z.of_nat (length s) - Z.pos f) in
      if neg then String "-" text else text
  end.

(** *** [parseInt(string)] with the radix left undefined *)

(** White space that [parseInt] skips (the ASCII part of
    [StrWhiteSpaceChar]: TAB, LF, VT, FF, CR, SP). *)
Definition is_white_space (c : ascii) : bool :=
  let n := nat_of_ascii c in
  ((9 <=? n)%nat && (n <=? 13)%nat) || (n =? 32)%nat.

Fixpoint trim_start (s : string) : string :=
  match s with
  | String c s' => if is_white_space c then trim_start s' else s
  | EmptyString => s
  end.

(** The value of a character as a digit, for every radix up to 36. *)
Definition digit_value (c : ascii) : option Z :=
  let n := nat_of_ascii c in
  if ((48 <=? n)%nat && (n <=? 57)%nat) then Some (Z.of_nat n - 48)
  else if ((97 <=? n)%nat && (n <=? 122)%nat) then Some (Z.of_nat n - 87)
  else if ((65 <=? n)%nat && (n <=? 90)%nat) then Some (Z.of_nat n - 55)
  else None.

(** Reads the longest prefix of radix-[radix] digits; [acc] is [None]
    until a first digit has been read. *)
Fixpoint parse_digits (radix : Z) (s : string) (acc : option Z) : option Z :=
  match s with
  | String c s' =>
      match digit_value c with
      | Some d =>
          if d <? radix
          then parse_digits radix s' (Some (radix * default 0 acc + d))
          else acc
      | None => acc
      end
  | EmptyString => acc
  end.

Definition strip_sign (s : string) : Z * string :=
  match s with
  | String "-" s' => (-1, s')
  | String "+" s' => (1, s')
  | _ => (1, s)
  end.

Definition strip_prefix (s : string) : Z * string :=
  match s with
  | String "0" (String "x" s') => (16, s')
  | String "0" (String "X" s') => (16, s')
  | _ => (10, s)
  end.

(** [NaN] when there is no digit to read; a zero read after a minus sign
    is [-0]. *)
Definition parseInt_string (input : string) : Number :=
  let '(sign, s) := strip_sign (trim_start input) in
  let '(radix, s) := strip_prefix s in
  match parse_digits radix s None with
  | None => NaN
  | Some m => if (m =? 0) && (sign <? 0) then NegZero else Int (sign * m)
  end.

(** [parseInt(x)] for a number [x]: the argument goes through [ToString]. *)
Definition parseInt (x : Number) : Number := parseInt_string (ToString x).

(** *** Arrays *)

(** [array.findIndex(p)]: the first index whose element satisfies [p],
    [-1] when there is none. *)
Fixpoint findIndex {A} (p : A -> bool) (l : list A) : Z :=
  match l with
  | [] => -1
  | x :: l' =>
      if p x then 0
      else let i := findIndex p l' in if i <? 0 then -1 else 1 + i
  end.

(** The index [splice] really starts at: a negative [start] counts from
    the end, and the result is clamped to [0 .. length]. *)
Definition relative_start {A} (start : Z) (l : list A) : nat :=
  let len := Z.of_nat (length l) in
  if start <? 0 then Z.to_nat (Z.max (len + start) 0)
  else Z.to_nat (Z.min start len).

(** [array.splice(start, 1)]: the removed elements and what is left. *)
Definition splice_delete1 {A} (start : Z) (l : list A) : list A * list A :=
  let k := relative_start start l in
  (take 1 (drop k l), take k l ++ drop (S k) l).

(** [array.splice(start, 0, item)]. *)
Definition splice_insert {A} (start : Z) (item : A) (l : list A) : list A :=
  let k := relative_start start l in
  take k l ++ item :: drop k l.

End JS.

(** ** The component state *)

(** A die: [{ id, value }], the face index [value] is in 0..5. *)
Record Die : Type := mkDie { id : nat; value : nat }.

(** The state variables of [App], one field per [useState]. *)
Record State : Type := mkState {
  numDice : nat;
  dice : list Die;
  frozenIds : gset nat;
  currentRoll : nat;
  maxRolls : JS.Number;
  isRolling : bool;
  draggedId : option nat;
  dragOverId : option nat;
  score : nat;
  theme : string;
  showOptions : bool;
  limitEnabled : bool;
  maxRollsSelection : string;
  customMaxRolls : JS.Number
}.

(** A queued state update: what a handler asks React to do to the state
    that is current when the update is applied. *)
Abbreviation Update := (State -> State).

(** The setters returned by [useState]. *)
Definition setNumDice (v : nat) : Update :=
  fun s =>
    mkState
      v (dice s) (frozenIds s) (currentRoll s) (maxRolls s) (isRolling s)
      (draggedId s) (dragOverId s) (score s) (theme s) (showOptions s)
      (limitEnabled s) (maxRollsSelection s) (customMaxRolls s).

Definition setDice (v : list Die) : Update :=
  fun s =>
    mkState
      (numDice s) v (frozenIds s) (currentRoll s) (maxRolls s) (isRolling s)
      (draggedId s) (dragOverId s) (score s) (theme s) (showOptions s)
      (limitEnabled s) (maxRollsSelection s) (customMaxRolls s).

Definition setFrozenIds (f : gset nat -> gset nat) : Update :=
  fun s =>
    mkState
      (numDice s) (dice s) (f (frozenIds s)) (currentRoll s) (maxRolls s)
      (isRolling s) (draggedId s) (dragOverId s) (score s) (theme s)
      (showOptions s) (limitEnabled s) (maxRollsSelection s)
      (customMaxRolls s).

Definition setCurrentRoll (f : nat -> nat) : Update :=
  fun s =>
    mkState
      (numDice s) (dice s) (frozenIds s) (f (currentRoll s)) (maxRolls s)
      (isRolling s) (draggedId s) (dragOverId s) (score s) (theme s)
      (showOptions s) (limitEnabled s) (maxRollsSelection s)
      (customMaxRolls s).

Definition setMaxRolls (v : JS.Number) : Update :=
  fun s =>
    mkState
      (numDice s) (dice s) (frozenIds s) (currentRoll s) v (isRolling s)
      (draggedId s) (dragOverId s) (score s) (theme s) (showOptions s)
      (limitEnabled s) (maxRollsSelection s) (customMaxRolls s).

Definition setIsRolling (v : bool) : Update :=
  fun s =>
    mkState
      (numDice s) (dice s) (frozenIds s) (currentRoll s) (maxRolls s) v
      (draggedId s) (dragOverId s) (score s) (theme s) (showOptions s)
      (limitEnabled s) (maxRollsSelection s) (customMaxRolls s).

Definition setDraggedId (v : option nat) : Update :=
  fun s =>
    mkState
      (numDice s) (dice s) (frozenIds s) (currentRoll s) (maxRolls s)
      (isRolling s) v (dragOverId s) (score s) (theme s) (showOptions s)
      (limitEnabled s) (maxRollsSelection s) (customMaxRolls s).

Definition setDragOverId (v : option nat) : Update :=
  fun s =>
    mkState
      (numDice s) (dice s) (frozenIds s) (currentRoll s) (maxRolls s)
      (isRolling s) (draggedId s) v (score s) (theme s) (showOptions s)
      (limitEnabled s) (maxRollsSelection s) (customMaxRolls s).

Definition setScore (v : nat) : Update :=
  fun s =>
    mkState
      (numDice s) (dice s) (frozenIds s) (currentRoll s) (maxRolls s)
      (isRolling s) (draggedId s) (dragOverId s) v (theme s) (showOptions s)
      (limitEnabled s) (maxRollsSelection s) (customMaxRolls s).

Definition setTheme (v : string) : Update :=
  fun s =>
    mkState
      (numDice s) (dice s) (frozenIds s) (currentRoll s) (maxRolls s)
      (isRolling s) (draggedId s) (dragOverId s) (score s) v (showOptions s)
      (limitEnabled s) (maxRollsSelection s) (customMaxRolls s).

Definition setShowOptions (v : bool) : Update :=
  fun s =>
    mkState
      (numDice s) (dice s) (frozenIds s) (currentRoll s) (maxRolls s)
      (isRolling s) (draggedId s) (dragOverId s) (score s) (theme s) v
      (limitEnabled s) (maxRollsSelection s) (customMaxRolls s).

Definition setLimitEnabled (v : bool) : Update :=
  fun s =>
    mkState
      (numDice s) (dice s) (frozenIds s) (currentRoll s) (maxRolls s)
      (isRolling s) (draggedId s) (dragOverId s) (score s) (theme s)
      (showOptions s) v (maxRollsSelection s) (customMaxRolls s).

Definition setMaxRollsSelection (v : string) : Update :=
  fun s =>
    mkState
      (numDice s) (dice s) (frozenIds s) (currentRoll s) (maxRolls s)
      (isRolling s) (draggedId s) (dragOverId s) (score s) (theme s)
      (showOptions s) (limitEnabled s) v (customMaxRolls s).

Definition setCustomMaxRolls (v : JS.Number) : Update :=
  fun s =>
    mkState
      (numDice s) (dice s) (frozenIds s) (currentRoll s) (maxRolls s)
      (isRolling s) (draggedId s) (dragOverId s) (score s) (theme s)
      (showOptions s) (limitEnabled s) (maxRollsSelection s) v.


(** ** The random source *)

(** [Math.random] is a global generator: the stream of its samples and the
    number of calls made so far.  The component uses a sample in one way
    only, [Math.floor(Math.random() * 6)], which is an integer in 0..5
    since the sample is a double in [0, 1): sample [k] reduced modulo 6 is
    the face the [k]-th call yields, and every sequence of faces comes
    from some stream. *)
Record Rng : Type := mkRng { samples : nat -> nat; calls : nat }.

(** Computations that draw from the generator. *)
Definition Rand (A : Type) : Type := Rng -> A * Rng.

Definition ret {A} (a : A) : Rand A := fun g => (a, g).

Definition bind {A B} (m : Rand A) (k : A -> Rand B) : Rand B :=
  fun g => let '(a, g') := m g in k a g'.

Declare Scope rand_scope.
Delimit Scope rand_scope with rand.
Notation "x <- m ;; k" := (bind m (fun x => k))
  (at level 100, m at next level, right associativity) : rand_scope.

(** [Math.floor(Math.random() * 6)]: a face index in 0..5. *)
Definition random_face : Rand nat :=
  fun g => ((samples g (calls g) mod 6)%nat, mkRng (samples g) (S (calls g))).

(** [array.map(f)] for an [f] that draws: elements are visited in order. *)
Fixpoint mapM {A B} (f : A -> Rand B) (l : list A) : Rand (list B) :=
  match l with
  | [] => ret []
  | x :: l' => (y <- f x ;; ys <- mapM f l' ;; ret (y :: ys))%rand
  end.

(** ** Handlers

    A handler is a closure of the render that created it: it reads the
    state variables of that render, [r], and queues updates.  Called from
    an event the render is the current one; called from a timer it is the
    render in which the timer was set. *)

(** *** Drag and drop *)

Definition handleDragStart (i : nat) : Update := setDraggedId (Some i).

Definition handleDragEnter (r : State) (i : nat) : Update :=
  if bool_decide (draggedId r = Some i) then (fun s => s)
  else setDragOverId (Some i).

Definition handleDragEnd : Update :=
  fun s => setDragOverId None (setDraggedId None s).

(** [None] when [draggedItem] is [undefined], which [splice] then stores in
    the array: rendering it throws. *)
Definition handleDrop (r : State) (targetId : nat) : option Update :=
  match draggedId r with
  | None => Some handleDragEnd
  | Some dragged =>
      if (dragged =? targetId)%nat then Some handleDragEnd
      else
        let draggedIndex := JS.findIndex (fun d => (id d =? dragged)%nat) (dice r) in
        let targetIndex := JS.findIndex (fun d => (id d =? targetId)%nat) (dice r) in
        let newDice := dice r in
        match JS.splice_delete1 draggedIndex newDice with
        | (draggedItem :: _, newDice) =>
            let newDice := JS.splice_insert targetIndex draggedItem newDice in
            Some (fun s => handleDragEnd (setDice newDice s))
        | ([], _) => None
        end
  end.

(** *** Game logic *)

(** [currentDice.reduce((sum, d) => sum + d.value + 1, 0)]. *)
Definition total (currentDice : list Die) : nat :=
  fold_left (fun sum d => (sum + value d + 1)%nat) currentDice 0%nat.

Definition calculateScore (currentDice : list Die) : Update :=
  setScore (total currentDice).

(** The limit [startNewGame] computes from the options of the render. *)
Definition newMaxRolls (r : State) : JS.Number :=
  if limitEnabled r then
    if String.eqb (maxRollsSelection r) "other"
    then JS.or (JS.parseInt (customMaxRolls r)) (JS.Int 10)
    else JS.parseInt_string (maxRollsSelection r)
  else JS.Infinity.

(** [Array.from({ length: numDice }, (_, i) => ({ id: i, value: ... }))]. *)
Definition initialDice (n : nat) : Rand (list Die) :=
  mapM (fun i => (v <- random_face ;; ret (mkDie i v))%rand) (seq 0 n).

Definition startNewGame (r : State) : Rand Update :=
  (ds <- initialDice (numDice r) ;;
   ret (fun s =>
          calculateScore ds
            (setIsRolling false
               (setCurrentRoll (fun _ => 0%nat)
                  (setFrozenIds (fun _ => ∅)
                     (setDice ds (setMaxRolls (newMaxRolls r) s)))))))%rand.

(** [dice.map(d => frozenIds.has(d.id) ? d : { ...d, value: ... })]. *)
Definition reroll (frozen : gset nat) (ds : list Die) : Rand (list Die) :=
  mapM (fun d =>
          if bool_decide (id d ∈ frozen) then ret d
          else (v <- random_face ;; ret (mkDie (id d) v))%rand) ds.

Definition toggleFreeze (r : State) (i : nat) : Update :=
  if isRolling r || (currentRoll r =? 0)%nat then (fun s => s)
  else
    setFrozenIds (fun prevIds =>
                    let newIds := prevIds in
                    if bool_decide (i ∈ newIds) then newIds ∖ {[i]}
                    else newIds ∪ {[i]}).

(** ** Timers and the event loop *)

(** What the two timers of one [rollDice] call share: the [dice] and
    [frozenIds] of the render that rolled, and the local [tempDice]. *)
Record Roll : Type := mkRoll {
  roll_dice : list Die;
  roll_frozenIds : gset nat;
  tempDice : list Die
}.

(** The component between two events: its state, the rolls whose timers
    are pending (by timer id), the next timer id and the generator. *)
Record World : Type := mkWorld {
  state : State;
  timers : gmap nat Roll;
  next_timer : nat;
  rng : Rng
}.

(** Applies the updates a handler queued. *)
Definition applyUpdate (u : Update) (w : World) : World :=
  mkWorld (u (state w)) (timers w) (next_timer w) (rng w).

(** Runs a handler that draws. *)
Definition applyRand (m : Rand Update) (w : World) : World :=
  let '(u, g) := m (rng w) in
  mkWorld (u (state w)) (timers w) (next_timer w) g.

(** [rollDice]: past the guard it queues the two updates and sets the two
    timers, which share the [dice] and [frozenIds] of the render and
    [tempDice = [...dice]]. *)
Definition rollDice (r : State) (w : World) : World :=
  if JS.ge (JS.Int (Z.of_nat (currentRoll r))) (maxRolls r) then w
  else
    let s := setCurrentRoll (fun prev => (prev + 1)%nat)
               (setIsRolling true (state w)) in
    let roll := mkRoll (dice r) (frozenIds r) (dice r) in
    mkWorld s (<[next_timer w := roll]> (timers w)) (S (next_timer w)) (rng w).

(** The [setInterval] callback of roll [t]. *)
Definition rollingInterval (t : nat) (w : World) : option World :=
  match timers w !! t with
  | None => None
  | Some roll =>
      let '(temp, g) := reroll (roll_frozenIds roll) (tempDice roll) (rng w) in
      let roll' := mkRoll (roll_dice roll) (roll_frozenIds roll) temp in
      Some (mkWorld (setDice temp (state w)) (<[t := roll']> (timers w))
                    (next_timer w) g)
  end.

(** The [setTimeout] callback of roll [t]; [clearInterval] ends the roll. *)
Definition rollTimeout (t : nat) (w : World) : option World :=
  match timers w !! t with
  | None => None
  | Some roll =>
      let '(finalDice, g) := reroll (roll_frozenIds roll) (roll_dice roll) (rng w) in
      Some (mkWorld (setIsRolling false
                       (calculateScore finalDice (setDice finalDice (state w))))
                    (delete t (timers w)) (next_timer w) g)
  end.

(** The dependency array of the effect, compared with [Object.is]. *)
Definition deps_changed (prev next : State) : bool :=
  negb ((numDice prev =? numDice next)%nat
        && Bool.eqb (limitEnabled prev) (limitEnabled next)
        && String.eqb (maxRollsSelection prev) (maxRollsSelection next)
        && JS.same (customMaxRolls prev) (customMaxRolls next)).

(** [useEffect(() => { startNewGame(); }, [...])] after the render that
    follows a render of state [prev]. *)
Definition useEffect (prev : State) (w : World) : World :=
  if deps_changed prev (state w) then applyRand (startNewGame (state w)) w
  else w.

(** The [useState] defaults. *)
Definition initialState : State :=
  mkState 5 [] ∅ 0 JS.Infinity false None None 0 "Default" false false "3" (JS.Int 10).

(** The first render; the effect always runs after it. *)
Definition mount (g : Rng) : World :=
  applyRand (startNewGame initialState) (mkWorld initialState ∅ 0 g).

(** The choices the three dropdowns offer. *)
Definition numDiceOptions : list nat := [1; 2; 3; 4; 5; 6]%nat.
Definition maxRollsOptions : list string := ["3"; "other"]%string.
Definition themes : list string := ["Default"; "Ocean"; "Sunset"]%string.

(** What can happen to the component: a control is used or a timer
    fires.  A dropdown delivers the value of the option chosen, the
    custom-limit input delivers [Number(e.target.value)]. *)
Inductive Event : Type :=
| ClickRoll
| IntervalFires (t : nat)
| TimeoutFires (t : nat)
| ClickDie (i : nat)
| DragStart (i : nat)
| DragEnter (i : nat)
| DragEnd
| Drop (targetId : nat)
| ClickNewGame
| SelectNumDice (n : nat)
| ToggleLimit
| SelectMaxRolls (v : string)
| InputCustomMaxRolls (v : JS.Number)
| SelectTheme (v : string)
| ToggleOptions.

(** The handler an event calls, on the current render.  Handlers are
    modelled for every call, also for those that a disabled or hidden
    control would not deliver.  A dropdown has no event for a value that
    is not among its options; the custom-limit input stores whatever
    number it is given. *)
Definition handle (e : Event) (w : World) : option World :=
  let r := state w in
  match e with
  | ClickRoll => Some (rollDice r w)
  | IntervalFires t => rollingInterval t w
  | TimeoutFires t => rollTimeout t w
  | ClickDie i => Some (applyUpdate (toggleFreeze r i) w)
  | DragStart i => Some (applyUpdate (handleDragStart i) w)
  | DragEnter i => Some (applyUpdate (handleDragEnter r i) w)
  | DragEnd => Some (applyUpdate handleDragEnd w)
  | Drop targetId =>
      match handleDrop r targetId with
      | Some u => Some (applyUpdate u w)
      | None => None
      end
  | ClickNewGame => Some (applyRand (startNewGame r) w)
  | SelectNumDice n =>
      if bool_decide (n ∈ numDiceOptions)
      then Some (applyUpdate (setNumDice n) w)
      else None
  | ToggleLimit => Some (applyUpdate (setLimitEnabled (negb (limitEnabled r))) w)
  | SelectMaxRolls v =>
      if bool_decide (v ∈ maxRollsOptions)
      then Some (applyUpdate (setMaxRollsSelection v) w)
      else None
  | InputCustomMaxRolls v => Some (applyUpdate (setCustomMaxRolls v) w)
  | SelectTheme v =>
      if bool_decide (v ∈ themes) then Some (applyUpdate (setTheme v) w) else None
  | ToggleOptions => Some (applyUpdate (setShowOptions (negb (showOptions r))) w)
  end.

(** One turn of the event loop: the handler, the render, the effect. *)
Definition step (w : World) (e : Event) : option World :=
  match handle e w with
  | Some w' => Some (useEffect (state w) w')
  | None => None
  end.

Fixpoint run (w : World) (es : list Event) : option World :=
  match es with
  | [] => Some w
  | e :: es' =>
      match step w e with
      | Some w' => run w' es'
      | None => None
      end
  end.

(** The worlds the application can be in. *)
Definition reachable (w : World) : Prop :=
  exists g es, run (mount g) es = Some w.

(** ** Vocabulary of the statements *)

(** The sum over all dice of (value + 1), as a specification. *)
Definition sum_of_faces (ds : list Die) : nat :=
  sum_list_with (fun d => (value d + 1)%nat) ds.

(** The sequence with the element at index [a] moved to index [b]. *)
Definition moved {A} (a b : nat) (x : A) (l : list A) : list A :=
  take b (delete a l) ++ x :: drop b (delete a l).

Definition is_decimal_char (c : ascii) : bool :=
  let n := nat_of_ascii c in (48 <=? n)%nat && (n <=? 57)%nat.

(** Text that starts with a decimal digit and goes on, if at all, with a
    character other than "x" and "X": no white space, sign or radix
    prefix for [parseInt] to strip. *)
Definition decimal_head (s : string) : Prop :=
  match s with
  | String c EmptyString => is_decimal_char c = true
  | String c (String c' _) =>
      is_decimal_char c = true /\ c' <> "x"%char /\ c' <> "X"%char
  | EmptyString => False
  end.

(** A decimal digit. *)
Definition is_digit (d : Z) : Prop := 0 <= d < 10.

(** The integer that the digits [ds] spell after [acc]. *)
Definition read (acc : Z) (ds : list Z) : Z :=
  fold_left (fun a d => 10 * a + d) ds acc.

(** The update an options control queues, for the four controls whose
    state variable the effect depends on. *)
Definition option_update (r : State) (e : Event) : option Update :=
  match e with
  | SelectNumDice n => Some (setNumDice n)
  | ToggleLimit => Some (setLimitEnabled (negb (limitEnabled r)))
  | SelectMaxRolls v => Some (setMaxRollsSelection v)
  | InputCustomMaxRolls v => Some (setCustomMaxRolls v)
  | _ => None
  end.

(** The control delivers a value other than the current one. *)
Definition changes_option (r : State) (e : Event) : Prop :=
  match e with
  | SelectNumDice n => n <> numDice r
  | ToggleLimit => True
  | SelectMaxRolls v => v <> maxRollsSelection r
  | InputCustomMaxRolls v => v <> customMaxRolls r
  | _ => False
  end.

(** The value an event carries is one its control can deliver: for a
    dropdown one of its options, for the custom-limit input any number. *)
Definition offered (e : Event) : Prop :=
  match e with
  | SelectNumDice n => n ∈ numDiceOptions
  | SelectMaxRolls v => v ∈ maxRollsOptions
  | SelectTheme v => v ∈ themes
  | _ => True
  end.

(** The theme dropdown and the options link. *)
Definition presentation (e : Event) : bool :=
  match e with
  | SelectTheme _ | ToggleOptions => true
  | _ => false
  end.

(** A generator to run the component on. *)
Definition sample_rng : Rng := mkRng (fun k => (7 * k + 3)%nat) 0.

(** Events of a game in progress: all but the controls that start a new
    game. *)
Definition in_game (e : Event) : bool :=
  match e with
  | ClickNewGame | SelectNumDice _ | ToggleLimit | SelectMaxRolls _
  | InputCustomMaxRolls _ => false
  | _ => true
  end.

(** The roll counter as a number. *)
Definition rolls (s : State) : JS.Number := JS.Int (Z.of_nat (currentRoll s)).

(** What every reachable state satisfies: the selection is one of the two
    the dropdown offers, and the limit is unbounded or an integer that the
    roll counter does not exceed, unless that integer is negative and no
    roll has been made. *)
Definition limit_ok (s : State) : Prop :=
  maxRollsSelection s ∈ maxRollsOptions
  /\ (maxRolls s = JS.Infinity
      \/ exists z, maxRolls s = JS.Int z
                   /\ (Z.of_nat (currentRoll s) <= z
                       \/ z < 0 /\ currentRoll s = 0%nat)).

(** The events of rolling: the button and the two timers. *)
Definition rolling (e : Event) : bool :=
  match e with
  | ClickRoll | IntervalFires _ | TimeoutFires _ => true
  | _ => false
  end.

(** [ds'] holds the dice of [ds] position by position, same ids, and the
    dice whose id is in [F] are the very same. *)
Definition agree (F : gset nat) (ds ds' : list Die) : Prop :=
  Forall2 (fun d d' => id d' = id d /\ (id d ∈ F -> d' = d)) ds ds'.

(** [ds'] is [ds] with the dice outside [F] given a new face. *)
Definition rerolled (F : gset nat) (ds ds' : list Die) : Prop :=
  Forall2 (fun d d' => id d' = id d /\ (id d ∈ F -> d' = d)
                       /\ (id d ∉ F -> (value d' < 6)%nat)) ds ds'.

(** The value shown by the die with id [i]. *)
Definition value_of (i : nat) (ds : list Die) : option nat :=
  (fun p => value p.2) <$> list_find (fun d => id d = i) ds.

(** Roll [t] is pending in [w]: it was started on the dice [D] with the
    frozen set [F], and its [tempDice] agree with [D] on [F]. *)
Definition pending (t : nat) (D : list Die) (F : gset nat) (w : World) : Prop :=
  exists roll,
    timers w !! t = Some roll
    /\ roll_dice roll = D /\ roll_frozenIds roll = F
    /\ agree F D (tempDice roll)
    /\ (t < next_timer w)%nat.

(** Every pending roll was started with the frozen set [F] and on dice
    that agree with [D] on [F], as do the dice on screen. *)
Definition coherent (F : gset nat) (D : list Die) (w : World) : Prop :=
  frozenIds (state w) = F
  /\ agree F D (dice (state w))
  /\ forall t roll, timers w !! t = Some roll ->
       roll_frozenIds roll = F
       /\ agree F D (roll_dice roll) /\ agree F D (tempDice roll).

(** With no roll pending, the score on screen is the sum of the faces on
    screen. *)
Definition score_settled (w : World) : Prop :=
  timers w = ∅ -> score (state w) = sum_of_faces (dice (state w)).


(** ** What the render shows *)

Definition diceFaces : list string := ["⚀"; "⚁"; "⚂"; "⚃"; "⚄"; "⚅"]%string.

(** The props one [Die] is rendered with; [face] is [diceFaces[d.value]],
    which is [undefined] past the end of the array. *)
Record DieProps : Type := mkDieProps {
  face : option string;
  isFrozen : bool;
  isDragging : bool;
  isDragOver : bool
}.

Definition dieProps (s : State) (d : Die) : DieProps :=
  mkDieProps (diceFaces !! value d)
             (bool_decide (id d ∈ frozenIds s))
             (bool_decide (draggedId s = Some (id d)))
             (bool_decide (dragOverId s = Some (id d))).

(** [{!isDragOver && value}]: what the die displays. *)
Definition shownFace (p : DieProps) : option string :=
  if isDragOver p then None else face p.

(** [disabled={isRolling || currentRoll >= maxRolls}] on the roll button. *)
Definition rollDisabled (s : State) : bool :=
  isRolling s || JS.ge (JS.Int (Z.of_nat (currentRoll s))) (maxRolls s).

(** The line above the score: the counter alone when the limit is
    [Infinity], the counter and the limit otherwise. *)
Definition rollLabel (s : State) : string :=
  match maxRolls s with
  | JS.Infinity => "Roll: " ++ JS.ToString (JS.Int (Z.of_nat (currentRoll s)))
  | m => "Roll: " ++ JS.ToString (JS.Int (Z.of_nat (currentRoll s)))
         ++ " / " ++ JS.ToString m
  end.

(** *** [StyledSelect] *)

Record SelectOption (V : Type) : Type := mkOption {
  opt_value : V;
  opt_label : string
}.
Arguments mkOption {V} _ _.
Arguments opt_value {V} _.
Arguments opt_label {V} _.

(** [options.find(opt => opt.value === value)?.label || value]: the label
    of the first option with the value, and the value itself when there is
    none or its label is empty. *)
Definition selectedLabel {V} `{EqDecision V}
    (options : list (SelectOption V)) (v : V) : string + V :=
  match list_find (fun opt => opt_value opt = v) options with
  | Some (_, opt) => if String.eqb (opt_label opt) "" then inr v else inl (opt_label opt)
  | None => inr v
  end.

(** The option lists of the three dropdowns of [App]. *)
Definition numDiceSelect : list (SelectOption nat) :=
  map (fun n => mkOption n (JS.ToString (JS.Int (Z.of_nat n)))) numDiceOptions.

Definition maxRollsSelect : list (SelectOption string) :=
  [mkOption "3" "3"; mkOption "other" "Other..."]%string.

Definition themeSelect : list (SelectOption string) :=
  map (fun t => mkOption t t) themes.

(** *** The controls on screen *)

(** The event comes from a control that the render of [w] shows and
    leaves enabled: the roll button is not disabled, a die is clicked or
    dragged only if it is rendered, "New Game" exists only with the limit
    enabled, and the options controls only inside the open panel. *)
Definition enabled (w : World) (e : Event) : bool :=
  let s := state w in
  match e with
  | ClickRoll => negb (rollDisabled s)
  | IntervalFires _ | TimeoutFires _ | DragEnd => true
  | ClickDie i | DragStart i | DragEnter i | Drop i =>
      bool_decide (i ∈ map id (dice s))
  | ClickNewGame => limitEnabled s
  | SelectNumDice _ | ToggleOptions => true
  | ToggleLimit | SelectTheme _ => showOptions s
  | SelectMaxRolls _ => showOptions s && limitEnabled s
  | InputCustomMaxRolls _ =>
      showOptions s && limitEnabled s && String.eqb (maxRollsSelection s) "other"
  end.

(** Runs the events that pass [ok] in the world they meet. *)
Fixpoint run_if (ok : World -> Event -> bool) (w : World) (es : list Event)
    : option World :=
  match es with
  | [] => Some w
  | e :: es' =>
      if ok w e then
        match step w e with
        | Some w' => run_if ok w' es'
        | None => None
        end
      else None
  end.

(** Play through the controls on screen in which none of the controls
    that can start a new game ("New Game", the number of dice, the limit
    and its two settings) is used while the dice are rolling. *)
Definition orderly (w : World) (e : Event) : bool :=
  enabled w e && (in_game e || negb (isRolling (state w))).

(** ** Vocabulary of the further properties *)

(** Dice as a game has them: between one and six, the ids 0 .. n-1 in
    some order, every face index in 0..5. *)
Definition well_formed (ds : list Die) : Prop :=
  (1 <= length ds <= 6)%nat
  /\ map id ds ≡ₚ seq 0 (length ds)
  /\ Forall (fun d => (value d < 6)%nat) ds.

(** The dice on screen and those of every pending roll are well formed,
    and the number of dice is one the dropdown offers. *)
Definition world_well_formed (w : World) : Prop :=
  well_formed (dice (state w))
  /\ numDice (state w) ∈ numDiceOptions
  /\ theme (state w) ∈ themes
  /\ forall t roll, timers w !! t = Some roll ->
       well_formed (roll_dice roll) /\ well_formed (tempDice roll)
       /\ (t < next_timer w)%nat.


(** The drag events that only touch the drag state. *)
Definition dragging (e : Event) : bool :=
  match e with
  | DragStart _ | DragEnter _ | DragEnd => true
  | _ => false
  end.

(** What orderly play keeps: as many dice as [numDice] says, a frozen set
    within their ids, and either no roll pending and the rolling flag
    down, or the flag up and exactly one roll pending, started on as many
    dice with the frozen set of the state. *)
Definition orderly_inv (w : World) : Prop :=
  length (dice (state w)) = numDice (state w)
  /\ (forall i, i ∈ frozenIds (state w) -> (i < numDice (state w))%nat)
  /\ (isRolling (state w) = false /\ timers w = ∅
      \/ isRolling (state w) = true
         /\ exists t roll,
              timers w = {[t := roll]}
              /\ length (roll_dice roll) = numDice (state w)
              /\ length (tempDice roll) = numDice (state w)
              /\ roll_frozenIds roll = frozenIds (state w)).


(** The clicks on the roll button among the events. *)
Fixpoint count_rolls (es : list Event) : nat :=
  match es with
  | [] => 0
  | ClickRoll :: es' => S (count_rolls es')
  | _ :: es' => count_rolls es'
  end.

(** * Properties *)

(** Splits the guards of a handler that produced a world: the test on the
    value an event carries, and the completion of a drop. *)
Ltac case_guards H :=
  repeat match type of H with
    | (if ?b then _ else _) = Some _ => destruct b; [|discriminate H]
    | match handleDrop ?r ?i with _ => _ end = Some _ =>
        let Hd := fresh "Hdrop" in
        destruct (handleDrop r i) eqn:Hd; [|discriminate H]
    end.

(** ** JavaScript built-ins on concrete inputs *)

Example parseInt_letters : JS.parseInt_string "abc" = JS.NaN.
Proof. reflexivity. Qed.

Example parseInt_prefixes :
  JS.parseInt_string "  0x1F" = JS.Int 31
  /\ JS.parseInt_string "12px" = JS.Int 12
  /\ JS.parseInt_string "-7.5" = JS.Int (-7)
  /\ JS.parseInt_string "-0.5" = JS.NegZero
  /\ JS.parseInt_string "1e+21" = JS.Int 1.
Proof. vm_compute. repeat split. Qed.

Example ToString_texts :
  JS.ToString (JS.Int (-120)) = "-120"%string
  /\ JS.ToString (JS.Int (2 ^ 53 - 1)) = "9007199254740991"%string
  /\ JS.ToString (JS.Int (10 ^ 20)) = "100000000000000000000"%string
  /\ JS.ToString (JS.Int (10 ^ 21)) = "1e+21"%string
  /\ JS.ToString (JS.Int (-123456789012345680000000)) = "-1.2345678901234568e+23"%string
  /\ JS.ToString (JS.Frac false 2 JS.D5 1) = "2.5"%string
  /\ JS.ToString (JS.Frac true 0 JS.D5 1) = "-0.5"%string
  /\ JS.ToString (JS.Frac false 12345 JS.D6 3) = "123.456"%string
  /\ JS.ToString (JS.Frac false 0 JS.D1 6) = "0.000001"%string
  /\ JS.ToString (JS.Frac false 0 JS.D1 7) = "1e-7"%string
  /\ JS.ToString (JS.Frac true 1 JS.D5 8) = "-1.5e-7"%string
  /\ JS.ToString JS.NegZero = "0"%string.
Proof. vm_compute. repeat split. Qed.

Example parseInt_numbers :
  JS.parseInt JS.Infinity = JS.NaN
  /\ JS.parseInt (JS.Int 0) = JS.Int 0
  /\ JS.parseInt JS.NegZero = JS.Int 0
  /\ JS.parseInt (JS.Int (2 ^ 53 - 1)) = JS.Int (2 ^ 53 - 1)
  /\ JS.parseInt (JS.Int (10 ^ 21)) = JS.Int 1
  /\ JS.parseInt (JS.Frac false 2 JS.D5 1) = JS.Int 2
  /\ JS.parseInt (JS.Frac true 2 JS.D5 1) = JS.Int (-2)
  /\ JS.parseInt (JS.Frac true 0 JS.D5 1) = JS.NegZero
  /\ JS.parseInt (JS.Frac false 1 JS.D5 8) = JS.Int 1.
Proof. vm_compute. repeat split. Qed.

Example Object_is :
  JS.same JS.NaN JS.NaN = true
  /\ JS.same (JS.Int 0) JS.NegZero = false
  /\ JS.same JS.NegZero (JS.Int 0) = false
  /\ JS.same JS.NegZero JS.NegZero = true
  /\ JS.same (JS.Frac false 2 JS.D5 1) (JS.Frac false 2 JS.D5 1) = true
  /\ JS.same (JS.Frac false 2 JS.D5 1) (JS.Int 2) = false.
Proof. vm_compute. repeat split. Qed.

(** ** Scoring *)

Lemma total_fold (ds : list Die) (a : nat) :
  fold_left (fun sum d => (sum + value d + 1)%nat) ds a = (a + sum_of_faces ds)%nat.
Proof.
  revert a. induction ds as [|d ds IH]; intros a; simpl.
  - unfold sum_of_faces. simpl. lia.
  - rewrite IH. unfold sum_of_faces. simpl. lia.
Qed.

Lemma total_sum (ds : list Die) : total ds = sum_of_faces ds.
Proof. unfold total. now rewrite total_fold. Qed.

Lemma sum_of_faces_app (l1 l2 : list Die) :
  sum_of_faces (l1 ++ l2) = (sum_of_faces l1 + sum_of_faces l2)%nat.
Proof. unfold sum_of_faces. apply sum_list_with_app. Qed.

Lemma startNewGame_score (r : State) (g : Rng) (s : State) :
  score ((startNewGame r g).1 s) = sum_of_faces (dice ((startNewGame r g).1 s)).
Proof.
  unfold startNewGame, bind, ret.
  destruct (initialDice (numDice r) g) as [ds g']. simpl. apply total_sum.
Qed.

Lemma rollTimeout_score (t : nat) (w w' : World) :
  rollTimeout t w = Some w' -> score (state w') = sum_of_faces (dice (state w')).
Proof.
  intros H. unfold rollTimeout in H.
  destruct (timers w !! t) as [roll|]; [|discriminate].
  destruct (reroll _ _ _) as [finalDice g]. injection H as <-. simpl.
  apply total_sum.
Qed.

(** ** Freezing *)

(** C8. While a roll is in progress or before the first roll,
    [toggleFreeze] changes nothing; otherwise it flips the membership of
    the clicked id, leaves that of every other id alone, and changes no
    other state variable. *)
Theorem toggleFreeze_spec (r : State) (i : nat) :
  (isRolling r = true \/ currentRoll r = 0%nat -> forall s, toggleFreeze r i s = s)
  /\ (isRolling r = false -> currentRoll r <> 0%nat ->
      forall s,
        (i ∈ frozenIds (toggleFreeze r i s) <-> i ∉ frozenIds s)
        /\ (forall j, j <> i ->
              (j ∈ frozenIds (toggleFreeze r i s) <-> j ∈ frozenIds s))
        /\ setFrozenIds (fun _ => frozenIds s) (toggleFreeze r i s) = s).
Proof.
  unfold toggleFreeze. split.
  - intros [H | H] s; rewrite H; [reflexivity|].
    rewrite Nat.eqb_refl, orb_true_r. reflexivity.
  - intros H1 H2 s. rewrite H1. apply Nat.eqb_neq in H2. rewrite H2. simpl.
    split; [|split].
    + destruct (bool_decide_reflect (i ∈ frozenIds s)); simpl;
        rewrite ?elem_of_difference, ?elem_of_union, ?elem_of_singleton;
        intuition congruence.
    + intros j Hj.
      destruct (bool_decide_reflect (i ∈ frozenIds s)); simpl;
        rewrite ?elem_of_difference, ?elem_of_union, ?elem_of_singleton;
        intuition congruence.
    + destruct s; reflexivity.
Qed.

Lemma toggleFreeze_spec_witness :
  let r := setCurrentRoll (fun _ => 1%nat) initialState in
  (2%nat ∈ frozenIds (toggleFreeze r 2 r))
  /\ (2%nat ∉ frozenIds (toggleFreeze r 2 (toggleFreeze r 2 r)))
  /\ toggleFreeze initialState 2 initialState = initialState.
Proof.
  intros r.
  destruct (toggleFreeze_spec r 2) as [_ Hflip].
  destruct (toggleFreeze_spec initialState 2) as [Hnoop _].
  specialize (Hflip eq_refl ltac:(discriminate)).
  split; [|split].
  - destruct (Hflip r) as [H1 _]. apply H1.
    exact (not_elem_of_empty (C := gset nat) 2%nat).
  - destruct (Hflip r) as [H1 _]. destruct (Hflip (toggleFreeze r 2 r)) as [H2 _].
    intros Hin. apply H2 in Hin. apply Hin, H1.
    exact (not_elem_of_empty (C := gset nat) 2%nat).
  - apply Hnoop. right. reflexivity.
Defined.

(** ** A new game *)

Lemma random_face_lt (g : Rng) : ((random_face g).1 < 6)%nat.
Proof. unfold random_face. cbn [fst]. apply Nat.mod_upper_bound. discriminate. Qed.

Lemma mapM_length {A B} (f : A -> Rand B) (l : list A) (g : Rng) :
  length (mapM f l g).1 = length l.
Proof.
  revert g. induction l as [|x l IH]; intros g; [reflexivity|].
  simpl. unfold bind, ret. destruct (f x g) as [y g1].
  specialize (IH g1). destruct (mapM f l g1) as [ys g2]. simpl in *. now rewrite IH.
Qed.

(** What [mapM] returns satisfies, element by element, any relation that
    [f] establishes between its argument and its result. *)
Lemma mapM_Forall2 {A B} (R : A -> B -> Prop) (f : A -> Rand B) (l : list A) :
  (forall x g, R x (f x g).1) ->
  forall g, Forall2 R l (mapM f l g).1.
Proof.
  intros Hf. induction l as [|x l IH]; intros g; [constructor|].
  simpl. unfold bind, ret. pose proof (Hf x g) as Hx.
  destruct (f x g) as [y g1]. specialize (IH g1).
  destruct (mapM f l g1) as [ys g2]. simpl in *. now constructor.
Qed.

Lemma initialDice_spec (n : nat) (g : Rng) :
  Forall2 (fun i d => id d = i /\ (value d < 6)%nat) (seq 0 n) (initialDice n g).1.
Proof.
  apply mapM_Forall2. intros i g'. unfold bind, ret.
  pose proof (random_face_lt g') as H. destruct (random_face g') as [v g''].
  simpl in *. auto.
Qed.

Lemma startNewGame_dice (r : State) (g : Rng) (s : State) :
  dice ((startNewGame r g).1 s) = (initialDice (numDice r) g).1.
Proof.
  unfold startNewGame, bind, ret. now destruct (initialDice (numDice r) g).
Qed.

Lemma startNewGame_fields (r : State) (g : Rng) (s : State) :
  let s' := (startNewGame r g).1 s in
  frozenIds s' = ∅ /\ currentRoll s' = 0%nat /\ isRolling s' = false
  /\ maxRolls s' = newMaxRolls r
  /\ numDice s' = numDice s /\ limitEnabled s' = limitEnabled s
  /\ maxRollsSelection s' = maxRollsSelection s
  /\ customMaxRolls s' = customMaxRolls s.
Proof.
  unfold startNewGame, bind, ret. destruct (initialDice (numDice r) g).
  simpl. repeat split.
Qed.

(** C5. A new game stores exactly [numDice] dice, with the ids
    0 .. numDice-1 in that order and every value in 0..5, empties the
    frozen set, resets the roll counter and stores the score of the fresh
    dice.  This holds for every [numDice], so for 1..6. *)
Theorem startNewGame_fresh (r : State) (g : Rng) (s : State) :
  let s' := (startNewGame r g).1 s in
  length (dice s') = numDice r
  /\ map id (dice s') = seq 0 (numDice r)
  /\ Forall (fun d => (value d < 6)%nat) (dice s')
  /\ frozenIds s' = ∅
  /\ currentRoll s' = 0%nat
  /\ score s' = sum_of_faces (dice s').
Proof.
  intros s'. subst s'.
  pose proof (startNewGame_fields r g s) as (HF & HC & _).
  pose proof (initialDice_spec (numDice r) g) as H.
  rewrite <- (startNewGame_dice r g s) in H.
  split; [|split; [|split; [|split; [|split]]]]; trivial.
  - apply Forall2_length in H. now rewrite <- H, length_seq.
  - clear -H. induction H as [|i d l l' [Hi _] _ IH]; simpl; congruence.
  - clear -H. induction H as [|i d l l' [_ Hv] _ IH]; constructor; trivial.
  - apply startNewGame_score.
Qed.

(** ** Reordering by drag and drop *)

(** [findIndex] on an id test is the first index holding that id. *)
Lemma findIndex_list_find (i : nat) (ds : list Die) :
  JS.findIndex (fun d => (id d =? i)%nat) ds =
  match list_find (fun d => id d = i) ds with
  | Some (k, _) => Z.of_nat k
  | None => -1
  end.
Proof.
  induction ds as [|d ds IH]; [reflexivity|].
  cbn [JS.findIndex list_find]. destruct (decide (id d = i)) as [->|Hne].
  - now rewrite Nat.eqb_refl.
  - apply Nat.eqb_neq in Hne. rewrite Hne, IH.
    destruct (list_find _ ds) as [[k x]|]; simpl; [|reflexivity].
    destruct (Z.ltb_spec (Z.of_nat k) 0); lia.
Qed.

Lemma relative_start_in_range {A} (k : nat) (l : list A) :
  (k <= length l)%nat -> JS.relative_start (Z.of_nat k) l = k.
Proof.
  intros H. unfold JS.relative_start.
  destruct (Z.ltb_spec (Z.of_nat k) 0); lia.
Qed.

Lemma splice_delete1_at {A} (k : nat) (x : A) (l : list A) :
  l !! k = Some x -> JS.splice_delete1 (Z.of_nat k) l = ([x], delete k l).
Proof.
  intros H. unfold JS.splice_delete1.
  rewrite relative_start_in_range by (apply lookup_lt_Some in H; lia).
  rewrite (drop_S _ _ _ H), delete_take_drop. reflexivity.
Qed.

Lemma splice_insert_at {A} (a b : nat) (x : A) (l : list A) :
  (a < length l)%nat -> (b < length l)%nat ->
  JS.splice_insert (Z.of_nat b) x (delete a l) = moved a b x l.
Proof.
  intros Ha Hb. unfold JS.splice_insert, moved.
  rewrite relative_start_in_range; [reflexivity|].
  rewrite length_delete by (apply lookup_lt_is_Some; lia). lia.
Qed.

Lemma delete_middle {A} (l1 l2 : list A) (x : A) (b : nat) :
  length l1 = b -> delete b (l1 ++ x :: l2) = l1 ++ l2.
Proof.
  revert b. induction l1 as [|y l1 IH]; intros b <-; [reflexivity|].
  simpl. f_equal. now apply IH.
Qed.

Lemma moved_lookup {A} (a b : nat) (x : A) (l : list A) :
  (a < length l)%nat -> (b < length l)%nat ->
  moved a b x l !! b = Some x
  /\ delete b (moved a b x l) = delete a l
  /\ (forall i, (a <= i < b)%nat -> moved a b x l !! i = l !! S i)
  /\ (forall i, (b < i <= a)%nat -> moved a b x l !! i = l !! (i - 1)%nat)
  /\ (forall i, (i < a)%nat /\ (i < b)%nat \/ (a < i)%nat /\ (b < i)%nat ->
                moved a b x l !! i = l !! i).
Proof.
  intros Ha Hb. unfold moved.
  assert (Hlen : length (delete a l) = (length l - 1)%nat)
    by (apply length_delete, lookup_lt_is_Some; lia).
  assert (Htake : length (take b (delete a l)) = b)
    by (rewrite length_take_le; lia).
  assert (Hlow : forall i, (i < b)%nat ->
            (take b (delete a l) ++ x :: drop b (delete a l)) !! i = delete a l !! i).
  { intros i Hi. rewrite lookup_app_l by lia. now apply lookup_take_lt. }
  assert (Hhigh : forall i, (b < i)%nat ->
            (take b (delete a l) ++ x :: drop b (delete a l)) !! i
            = delete a l !! (i - 1)%nat).
  { intros i Hi. rewrite lookup_app_r by lia. rewrite Htake.
    replace (i - b)%nat with (S (i - b - 1)) by lia. cbn [lookup list_lookup].
    change ((drop b (delete a l)) !! (i - b - 1)%nat = delete a l !! (i - 1)%nat).
    rewrite lookup_drop. f_equal. lia. }
  split; [|split; [|split; [|split]]].
  - rewrite lookup_app_r by lia. rewrite Htake, Nat.sub_diag. reflexivity.
  - rewrite delete_middle by exact Htake. apply take_drop.
  - intros i Hi. rewrite Hlow by lia. apply list_lookup_delete_ge. lia.
  - intros i Hi. rewrite Hhigh by lia. apply list_lookup_delete_lt. lia.
  - intros i [[H1 H2]|[H1 H2]].
    + rewrite Hlow by lia. apply list_lookup_delete_lt. lia.
    + rewrite Hhigh by lia. rewrite list_lookup_delete_ge by lia. f_equal. lia.
Qed.

Lemma handleDragEnd_clears (s : State) :
  draggedId (handleDragEnd s) = None /\ dragOverId (handleDragEnd s) = None.
Proof. split; reflexivity. Qed.

(** C6. With die [A] being dragged and dropped on a different die [B],
    [a] and [b] being the indices of the two ids in the sequence: the new
    sequence holds [A]'s die at index [b], is the old one once that die is
    taken out of both (so all other dice keep their relative order), and
    the dice between the two indices have moved by one position while
    those outside have not moved.  Dropping with no drag source or on the
    dragged die itself changes no die.  Whenever the handler completes,
    [draggedId] and [dragOverId] are cleared. *)
Theorem handleDrop_spec (r : State) (B : nat) :
  (forall A a b dA dB,
      draggedId r = Some A -> A <> B ->
      list_find (fun d => id d = A) (dice r) = Some (a, dA) ->
      list_find (fun d => id d = B) (dice r) = Some (b, dB) ->
      exists newDice,
        handleDrop r B = Some (fun s => handleDragEnd (setDice newDice s))
        /\ newDice !! b = Some dA
        /\ delete b newDice = delete a (dice r)
        /\ (forall i, (a <= i < b)%nat -> newDice !! i = dice r !! S i)
        /\ (forall i, (b < i <= a)%nat -> newDice !! i = dice r !! (i - 1)%nat)
        /\ (forall i, (i < a)%nat /\ (i < b)%nat \/ (a < i)%nat /\ (b < i)%nat ->
                      newDice !! i = dice r !! i))
  /\ (draggedId r = None \/ draggedId r = Some B ->
      handleDrop r B = Some handleDragEnd)
  /\ (forall s, dice (handleDragEnd s) = dice s)
  /\ (forall u s, handleDrop r B = Some u ->
                  draggedId (u s) = None /\ dragOverId (u s) = None).
Proof.
  split; [|split; [|split]].
  - intros A a b dA dB HA Hne Ha Hb.
    exists (moved a b dA (dice r)).
    unfold handleDrop. rewrite HA.
    apply Nat.eqb_neq in Hne. rewrite Hne.
    rewrite !findIndex_list_find, Ha, Hb.
    apply list_find_Some in Ha as (Ha & _ & _).
    apply list_find_Some in Hb as (Hb & _ & _).
    rewrite (splice_delete1_at _ _ _ Ha).
    pose proof (lookup_lt_Some _ _ _ Ha) as Hla.
    pose proof (lookup_lt_Some _ _ _ Hb) as Hlb.
    rewrite splice_insert_at by assumption.
    split; [reflexivity|]. now apply moved_lookup.
  - unfold handleDrop. intros [-> | ->]; [reflexivity|].
    now rewrite Nat.eqb_refl.
  - reflexivity.
  - intros u s. unfold handleDrop.
    destruct (draggedId r) as [A|]; [|intros [= <-]; apply handleDragEnd_clears].
    destruct (A =? B)%nat; [intros [= <-]; apply handleDragEnd_clears|].
    destruct (JS.splice_delete1 _ _) as [[|x ?] ?]; [discriminate|].
    intros [= <-]. split; reflexivity.
Qed.

Lemma handleDrop_spec_witness :
  let r := setDraggedId (Some 0%nat)
             (setDice [mkDie 0 3; mkDie 1 4; mkDie 2 5; mkDie 3 0] initialState) in
  exists newDice,
    handleDrop r 2 = Some (fun s => handleDragEnd (setDice newDice s))
    /\ newDice !! 2%nat = Some (mkDie 0 3)
    /\ newDice !! 0%nat = Some (mkDie 1 4)
    /\ newDice !! 3%nat = Some (mkDie 3 0).
Proof.
  intros r.
  destruct (handleDrop_spec r 2) as [Hmove _].
  destruct (Hmove 0%nat 0%nat 2%nat (mkDie 0 3) (mkDie 2 5))
    as (newDice & Hdrop & Hb & _ & Hfwd & _ & Hout);
    [reflexivity | discriminate | reflexivity | reflexivity |].
  exists newDice. split; [exact Hdrop|]. split; [exact Hb|]. split.
  - rewrite (Hfwd 0%nat) by lia. reflexivity.
  - rewrite (Hout 3%nat) by lia. reflexivity.
Defined.

(** A drop never stores [undefined] as long as the sequence is not empty,
    which a drop target on screen guarantees. *)
Lemma findIndex_range {A} (p : A -> bool) (l : list A) :
  -1 <= JS.findIndex p l < Z.of_nat (length l).
Proof.
  induction l as [|x l IH]; simpl; [lia|].
  destruct (p x); [lia|].
  destruct (Z.ltb_spec (JS.findIndex p l) 0); lia.
Qed.

Lemma handleDrop_completes (r : State) (B : nat) :
  dice r <> [] -> is_Some (handleDrop r B).
Proof.
  intros Hne. unfold handleDrop.
  destruct (draggedId r) as [A|]; [|eauto].
  destruct (A =? B)%nat; [eauto|].
  unfold JS.splice_delete1.
  set (i := JS.findIndex _ (dice r)).
  pose proof (findIndex_range (fun d => (id d =? A)%nat) (dice r)) as Hi. fold i in Hi.
  assert (Hk : (JS.relative_start i (dice r) < length (dice r))%nat).
  { unfold JS.relative_start. destruct (dice r); [congruence|].
    simpl length in *. destruct (Z.ltb_spec i 0); lia. }
  apply lookup_lt_is_Some in Hk as [x Hx].
  rewrite (drop_S _ _ _ Hx). simpl. eauto.
Qed.

Example handleDrop_forward :
  let r := setDraggedId (Some 0%nat)
             (setDice [mkDie 0 3; mkDie 1 4; mkDie 2 5; mkDie 3 0] initialState) in
  (fun u => map id (dice (u r))) <$> handleDrop r 2
  = Some [1; 2; 0; 3]%nat.
Proof. reflexivity. Qed.

Example handleDrop_backward :
  let r := setDraggedId (Some 3%nat)
             (setDice [mkDie 0 3; mkDie 1 4; mkDie 2 5; mkDie 3 0] initialState) in
  (fun u => map id (dice (u r))) <$> handleDrop r 1
  = Some [0; 3; 1; 2]%nat.
Proof. reflexivity. Qed.

(** ** [parseInt] reads what [ToString] prints *)

(** *** Digits *)

Lemma read_app (a : Z) (l1 l2 : list Z) : read a (l1 ++ l2) = read (read a l1) l2.
Proof. unfold read. apply fold_left_app. Qed.

Lemma read_shift (ds : list Z) :
  forall a, read a ds = a * 10 ^ Z.of_nat (length ds) + read 0 ds.
Proof.
  induction ds as [|d ds IH]; intros a.
  - cbn. lia.
  - cbn [read fold_left length]. fold (read (10 * a + d) ds). fold (read (10 * 0 + d) ds).
    rewrite (IH (10 * a + d)), (IH (10 * 0 + d)).
    rewrite Nat2Z.inj_succ, Z.pow_succ_r by lia. ring.
Qed.

Lemma read_bound (ds : list Z) :
  Forall is_digit ds -> 0 <= read 0 ds < 10 ^ Z.of_nat (length ds).
Proof.
  induction 1 as [|d ds Hd Hds IH].
  - cbn. lia.
  - cbn [read fold_left length]. fold (read (10 * 0 + d) ds).
    rewrite read_shift, Nat2Z.inj_succ, Z.pow_succ_r by lia.
    unfold is_digit in Hd.
    assert (0 < 10 ^ Z.of_nat (length ds)) by (apply Z.pow_pos_nonneg; lia).
    nia.
Qed.

Lemma read_cons (d : Z) (ds : list Z) :
  read 0 (d :: ds) = d * 10 ^ Z.of_nat (length ds) + read 0 ds.
Proof.
  cbn [read fold_left]. fold (read (10 * 0 + d) ds). rewrite read_shift. ring.
Qed.

(** The first [j] digits spell the quotient by the power of ten of the
    digits left out. *)
Lemma read_take (ds : list Z) (j : nat) :
  Forall is_digit ds -> (j <= length ds)%nat ->
  read 0 (take j ds) = read 0 ds / 10 ^ Z.of_nat (length ds - j).
Proof.
  intros Hds Hj.
  assert (Hsplit : read 0 ds
                   = read 0 (take j ds) * 10 ^ Z.of_nat (length ds - j)
                     + read 0 (drop j ds)).
  { rewrite <- (take_drop j ds) at 1. rewrite read_app, read_shift.
    now rewrite length_drop. }
  pose proof (read_bound (drop j ds) (Forall_drop _ _ _ Hds)) as Hb.
  rewrite length_drop in Hb.
  apply Z.div_unique with (read 0 (drop j ds)); [left; exact Hb|].
  rewrite Hsplit. ring.
Qed.

Lemma digits_from_spec (fuel : nat) :
  forall n rest, 0 < n < 2 ^ Z.of_nat (S fuel) ->
    exists d ds,
      JS.digits_from (S fuel) n rest = d :: ds ++ rest
      /\ 0 < d /\ Forall is_digit (d :: ds) /\ read 0 (d :: ds) = n.
Proof.
  induction fuel as [|fuel IH]; intros n rest Hn.
  - change (2 ^ Z.of_nat 1) with 2 in Hn. assert (n = 1) as -> by lia.
    exists 1, []. cbn. repeat split; try lia. repeat constructor; lia.
  - cbn [JS.digits_from]. pose proof (Z.mod_pos_bound n 10 ltac:(lia)) as Hm.
    pose proof (Z.div_mod n 10 ltac:(lia)) as Hdm.
    destruct (Z.eqb_spec (n / 10) 0) as [Hz|Hnz].
    + exists (n mod 10), []. rewrite Hz in Hdm. cbn.
      repeat split; try lia. repeat constructor; unfold is_digit; lia.
    + assert (Hdiv : 0 < n / 10 < 2 ^ Z.of_nat (S fuel)).
      { pose proof (Z.div_pos n 10 ltac:(lia) ltac:(lia)). split; [lia|].
        apply Z.div_lt_upper_bound; [lia|].
        rewrite (Nat2Z.inj_succ (S fuel)), Z.pow_succ_r in Hn by lia. lia. }
      destruct (IH (n / 10) (n mod 10 :: rest) Hdiv) as (d & ds & Heq & Hd & Hds & Hr).
      exists d, (ds ++ [n mod 10]).
      change (JS.digits_from (S fuel) (n / 10) (n mod 10 :: rest)
              = d :: (ds ++ [n mod 10]) ++ rest
              /\ 0 < d /\ Forall is_digit (d :: ds ++ [n mod 10])
              /\ read 0 (d :: ds ++ [n mod 10]) = n).
      rewrite Heq, <- app_assoc. split; [reflexivity|]. split; [exact Hd|]. split.
      * rewrite app_comm_cons. apply Forall_app. split; [exact Hds|].
        repeat constructor; unfold is_digit; lia.
      * rewrite app_comm_cons, read_app, Hr. cbn. lia.
Qed.

(** What [digits] returns for a positive integer: its decimal digits, the
    first of which is not 0. *)
Lemma digits_spec (n : Z) :
  0 < n ->
  exists d ds,
    JS.digits n = d :: ds
    /\ 0 < d /\ Forall is_digit (d :: ds) /\ read 0 (d :: ds) = n.
Proof.
  intros Hn. unfold JS.digits.
  destruct (digits_from_spec (Z.to_nat (Z.log2 n)) n []) as (d & ds & Heq & H).
  - split; [lia|]. rewrite Nat2Z.inj_succ, Z2Nat.id by apply Z.log2_nonneg.
    apply Z.log2_spec. lia.
  - exists d, ds. now rewrite Heq, app_nil_r.
Qed.

(** The number of digits places the integer between two powers of ten. *)
Lemma digits_length (n : Z) :
  0 < n ->
  10 ^ (Z.of_nat (length (JS.digits n)) - 1) <= n
  < 10 ^ Z.of_nat (length (JS.digits n)).
Proof.
  intros Hn. destruct (digits_spec n Hn) as (d & ds & -> & Hd & Hds & Hr).
  pose proof (read_bound _ Hds) as Hb. rewrite Hr in Hb. split; [|lia].
  rewrite read_cons in Hr. apply Forall_cons in Hds as [_ Hds].
  pose proof (read_bound _ Hds) as Hb'.
  cbn [length]. rewrite Nat2Z.inj_succ.
  replace (Z.succ (Z.of_nat (length ds)) - 1) with (Z.of_nat (length ds)) by lia.
  assert (0 < 10 ^ Z.of_nat (length ds)) by (apply Z.pow_pos_nonneg; lia).
  nia.
Qed.

(** The power of ten below an integer is the one its digits count. *)
Lemma decade_unique (s j k : Z) :
  0 <= j -> 0 <= k ->
  10 ^ j <= s < 10 ^ (j + 1) -> 10 ^ k <= s < 10 ^ (k + 1) -> j = k.
Proof.
  intros Hj Hk H1 H2.
  destruct (Z.lt_trichotomy j k) as [Hlt|[Heq|Hgt]]; [|exact Heq|].
  - assert (10 ^ (j + 1) <= 10 ^ k) by (apply Z.pow_le_mono_r; lia). lia.
  - assert (10 ^ (k + 1) <= 10 ^ j) by (apply Z.pow_le_mono_r; lia). lia.
Qed.

(** *** Text *)

Lemma digit_char_decimal (d : Z) :
  is_digit d ->
  is_decimal_char (JS.digit_char d) = true
  /\ JS.digit_value (JS.digit_char d) = Some d.
Proof.
  intros H. unfold is_digit in H.
  assert (d = 0 \/ d = 1 \/ d = 2 \/ d = 3 \/ d = 4 \/ d = 5 \/ d = 6
          \/ d = 7 \/ d = 8 \/ d = 9) as Hd by lia.
  repeat (destruct Hd as [-> | Hd]); try subst d; split; reflexivity.
Qed.

Lemma decimal_char_plain (c : ascii) :
  is_decimal_char c = true ->
  JS.is_white_space c = false
  /\ c <> "-"%char /\ c <> "+"%char /\ c <> "x"%char /\ c <> "X"%char.
Proof.
  destruct c as [[] [] [] [] [] [] [] []]; intros H;
    try discriminate H; repeat split; discriminate.
Qed.

Lemma print_app (l1 l2 : list Z) (rest : string) :
  JS.print (l1 ++ l2) rest = JS.print l1 (JS.print l2 rest).
Proof. induction l1 as [|d l1 IH]; [reflexivity|]. cbn. now rewrite IH. Qed.

(** [parseInt] reads the digits that [print] wrote and goes on with what
    follows them. *)
Lemma parse_print (ds : list Z) :
  Forall is_digit ds ->
  forall rest acc,
    JS.parse_digits 10 (JS.print ds rest) acc
    = JS.parse_digits 10 rest
        (match ds with [] => acc | _ => Some (read (default 0 acc) ds) end).
Proof.
  induction 1 as [|d ds Hd Hds IH]; intros rest acc; [reflexivity|].
  cbn [JS.print JS.parse_digits].
  destruct (digit_char_decimal d Hd) as [_ ->].
  unfold is_digit in Hd. destruct (Z.ltb_spec d 10) as [_|Hge]; [|lia].
  rewrite IH. destruct ds; reflexivity.
Qed.

Lemma print_head (d : Z) (ds : list Z) (rest : string) :
  Forall is_digit (d :: ds) ->
  match rest with
  | String c _ => c <> "x"%char /\ c <> "X"%char
  | EmptyString => True
  end ->
  decimal_head (JS.print (d :: ds) rest).
Proof.
  intros Hds Hrest. apply Forall_cons in Hds as [Hd Hds].
  destruct (digit_char_decimal d Hd) as [Hc _].
  cbn [JS.print]. destruct ds as [|d' ds].
  - cbn [JS.print]. destruct rest; cbn; tauto.
  - apply Forall_cons in Hds as [Hd' _].
    destruct (digit_char_decimal d' Hd') as [Hc' _].
    destruct (decimal_char_plain _ Hc') as (_ & _ & _ & Hx & HX).
    cbn. tauto.
Qed.

(** [parseInt] on text without white space and radix prefix, with or
    without a minus sign in front. *)
Lemma parseInt_text (neg : bool) (text : string) (m : Z) :
  decimal_head text ->
  JS.parse_digits 10 text None = Some m ->
  JS.parseInt_string (if neg then String "-" text else text)
  = if (m =? 0) && neg then JS.NegZero else JS.Int (JS.sign_of neg * m).
Proof.
  intros Hhead Hparse. destruct text as [|c s]; [destruct Hhead|].
  assert (Hc : is_decimal_char c = true) by (destruct s; cbn in Hhead; tauto).
  pose proof (decimal_char_plain c Hc) as (Hw & Hm & Hp & _).
  assert (Hsign : JS.strip_sign (String c s) = (1, String c s)).
  { clear -Hm Hp. destruct c as [[] [] [] [] [] [] [] []]; try reflexivity;
      congruence. }
  assert (Hpre : JS.strip_prefix (String c s) = (10, String c s)).
  { destruct s as [|c' s]; [clear; destruct c as [[] [] [] [] [] [] [] []]; reflexivity|].
    destruct Hhead as (_ & Hx & HX). clear -Hx HX.
    destruct c as [[] [] [] [] [] [] [] []]; try reflexivity;
      destruct c' as [[] [] [] [] [] [] [] []]; try reflexivity; congruence. }
  unfold JS.parseInt_string. destruct neg.
  - cbn [JS.trim_start]. change (JS.is_white_space "-") with false. cbn iota.
    cbn [JS.strip_sign]. rewrite Hpre, Hparse. reflexivity.
  - cbn [JS.trim_start]. rewrite Hw, Hsign, Hpre, Hparse.
    change (1 <? 0) with false. rewrite !andb_false_r. reflexivity.
Qed.

(** *** The zeros at the end *)

Lemma strip_zeros_app (ds : list Z) :
  JS.strip_zeros ds ++ replicate (length ds - length (JS.strip_zeros ds)) 0 = ds.
Proof.
  induction ds as [|d ds IH]; [reflexivity|].
  cbn [JS.strip_zeros]. destruct (JS.strip_zeros ds) as [|x r].
  - cbn in IH. rewrite Nat.sub_0_r in IH.
    destruct (Z.eqb_spec d 0) as [->|Hd]; cbn; rewrite ?Nat.sub_0_r; now rewrite IH.
  - cbn [length app Nat.sub]. cbn [length app] in IH. now rewrite IH.
Qed.

Lemma strip_zeros_head (d : Z) (ds : list Z) :
  d <> 0 -> exists r, JS.strip_zeros (d :: ds) = d :: r.
Proof.
  intros Hd. cbn [JS.strip_zeros]. destruct (JS.strip_zeros ds) as [|x r].
  - destruct (Z.eqb_spec d 0); [contradiction|]. now exists [].
  - now exists (x :: r).
Qed.

Lemma strip_zeros_length (ds : list Z) :
  (length (JS.strip_zeros ds) <= length ds)%nat.
Proof.
  pose proof (f_equal length (strip_zeros_app ds)) as H.
  rewrite length_app, length_replicate in H. lia.
Qed.

Lemma strip_zeros_Forall (P : Z -> Prop) (ds : list Z) :
  Forall P ds -> Forall P (JS.strip_zeros ds).
Proof.
  intros H. rewrite <- (strip_zeros_app ds) in H. now apply Forall_app in H as [H _].
Qed.

(** *** The text of a finite number *)

Section PrintFinite.

Variables (d : Z) (s : list Z) (n : Z).
Hypothesis Hdigits : Forall is_digit (d :: s).

Let k := Z.of_nat (length (d :: s)).

Lemma print_finite_head : decimal_head (JS.print_finite (d :: s) n).
Proof.
  unfold JS.print_finite. destruct ((-5 <=? n) && (n <=? 21)).
  - destruct (Z.of_nat (length (d :: s)) <=? n).
    + rewrite <- print_app. rewrite <- app_comm_cons. apply print_head; [|exact I].
      rewrite app_comm_cons. apply Forall_app. split; [exact Hdigits|].
      apply Forall_replicate. unfold is_digit. lia.
    + destruct (Z.ltb_spec 0 n) as [Hn|Hn].
      * destruct (Z.to_nat n) as [|j] eqn:Hj; [lia|]. cbn [take].
        apply print_head.
        -- apply Forall_cons in Hdigits as [Hd Hs]. constructor; [exact Hd|].
           now apply Forall_take.
        -- split; discriminate.
      * cbn. repeat split; discriminate.
  - apply Forall_cons in Hdigits as [Hd Hs].
    destruct (digit_char_decimal d Hd) as [Hc _].
    destruct s; cbn; repeat split; try exact Hc; discriminate.
Qed.

(** From [n] digits before the point on, [parseInt] reads the integer. *)
Lemma parse_print_finite_integer :
  k <= n <= 21 ->
  JS.parse_digits 10 (JS.print_finite (d :: s) n) None
  = Some (read 0 (d :: s) * 10 ^ (n - k)).
Proof.
  intros Hn. unfold JS.print_finite. fold k.
  assert (0 < k) by (unfold k; cbn [length]; lia).
  destruct (Z.leb_spec (-5) n); [|lia]. destruct (Z.leb_spec n 21); [|lia].
  destruct (Z.leb_spec k n); [|lia]. cbn [andb].
  rewrite <- print_app, parse_print.
  - rewrite <- app_comm_cons. cbn [JS.parse_digits default]. f_equal.
    rewrite app_comm_cons, read_app, read_shift, length_replicate.
    rewrite Z2Nat.id by lia.
    assert (Hz : forall j, read 0 (replicate j 0) = 0).
    { induction j as [|j IH]; [reflexivity|]. cbn [replicate]. rewrite read_cons, IH. lia. }
    rewrite Hz. lia.
  - apply Forall_app. split; [exact Hdigits|].
    apply Forall_replicate. unfold is_digit. lia.
Qed.

(** With the point inside the digits, [parseInt] reads the digits before
    the point. *)
Lemma parse_print_finite_fraction :
  0 < n < k -> n <= 21 ->
  JS.parse_digits 10 (JS.print_finite (d :: s) n) None
  = Some (read 0 (d :: s) / 10 ^ (k - n)).
Proof.
  intros Hn Hn'. unfold JS.print_finite. fold k.
  destruct (Z.leb_spec (-5) n); [|lia]. destruct (Z.leb_spec n 21); [|lia].
  destruct (Z.leb_spec k n); [lia|]. destruct (Z.ltb_spec 0 n); [|lia]. cbn [andb].
  rewrite parse_print by (now apply Forall_take).
  destruct (take (Z.to_nat n) (d :: s)) as [|x t] eqn:Ht.
  { destruct (Z.to_nat n) eqn:Hj; [lia|discriminate Ht]. }
  rewrite <- Ht. change (JS.parse_digits 10 (String "." ?r) ?a) with a.
  cbn [default]. f_equal.
  rewrite read_take; [|exact Hdigits|unfold k in *; lia].
  do 2 f_equal. unfold k in *. lia.
Qed.

(** Below 1 and without an exponent the text starts with "0.". *)
Lemma parse_print_finite_zero :
  -5 <= n <= 0 ->
  JS.parse_digits 10 (JS.print_finite (d :: s) n) None = Some 0.
Proof.
  intros Hn. unfold JS.print_finite. fold k.
  assert (0 < k) by (unfold k; cbn [length]; lia).
  destruct (Z.leb_spec (-5) n); [|lia]. destruct (Z.leb_spec n 21); [|lia].
  destruct (Z.leb_spec k n); [lia|]. destruct (Z.ltb_spec 0 n); [lia|]. reflexivity.
Qed.

(** In exponent notation [parseInt] reads the first digit. *)
Lemma parse_print_finite_exponent :
  n < -5 \/ 21 < n ->
  JS.parse_digits 10 (JS.print_finite (d :: s) n) None = Some d.
Proof.
  intros Hn. unfold JS.print_finite.
  replace ((-5 <=? n) && (n <=? 21)) with false
    by (symmetry; apply andb_false_iff; rewrite Z.leb_gt, Z.leb_gt; tauto).
  apply Forall_cons in Hdigits as [Hd _].
  assert (Hone : forall rest, JS.parse_digits 10 (JS.print [d] rest) None
                              = JS.parse_digits 10 rest (Some d)).
  { intros rest. rewrite parse_print by (constructor; [exact Hd|constructor]).
    reflexivity. }
  destruct s; rewrite Hone; reflexivity.
Qed.

End PrintFinite.

(** *** [parseInt] of a number *)

Lemma pow10_lt (a b : Z) : 0 <= b -> 10 ^ a < 10 ^ b -> a < b.
Proof.
  intros Hb H. destruct (Z.lt_ge_cases a b) as [Hlt|Hge]; [exact Hlt|].
  assert (10 ^ b <= 10 ^ a) by (apply Z.pow_le_mono_r; lia). lia.
Qed.

Lemma read_zeros (j : nat) : read 0 (replicate j 0) = 0.
Proof.
  induction j as [|j IH]; [reflexivity|]. cbn [replicate]. rewrite read_cons, IH. lia.
Qed.

(** The first digit is the quotient by the power of ten of the others. *)
Lemma read_first (d : Z) (ds : list Z) :
  Forall is_digit (d :: ds) -> d = read 0 (d :: ds) / 10 ^ Z.of_nat (length ds).
Proof.
  intros Hds. apply Forall_cons in Hds as [_ Hds].
  apply Z.div_unique with (read 0 ds); [left; now apply read_bound|].
  rewrite read_cons. ring.
Qed.

Lemma sign_of_abs (z : Z) : JS.sign_of (z <? 0) * Z.abs z = z.
Proof. unfold JS.sign_of. destruct (Z.ltb_spec z 0); lia. Qed.

(** An integer below 10^21 in magnitude prints in full, and [parseInt]
    reads it back. *)
Lemma parseInt_Int (z : Z) :
  z <> 0 -> Z.abs z < 10 ^ 21 -> JS.parseInt (JS.Int z) = JS.Int z.
Proof.
  intros Hz Hlt. unfold JS.parseInt, JS.ToString.
  destruct (Z.eqb_spec z 0) as [|_]; [contradiction|]. cbv zeta.
  destruct (digits_spec (Z.abs z)) as (d & ds & HD & Hd & Hds & Hr); [lia|].
  pose proof (digits_length (Z.abs z) ltac:(lia)) as Hlen.
  rewrite HD in *. set (D := d :: ds) in *.
  destruct (strip_zeros_head d ds ltac:(lia)) as [r Hs]. fold D in Hs.
  pose proof (strip_zeros_Forall _ _ Hds) as Hds'.
  pose proof (strip_zeros_length D) as Hle.
  pose proof (strip_zeros_app D) as Happ.
  rewrite Hs in *.
  assert (Hn : Z.of_nat (length D) <= 21).
  { assert (Z.of_nat (length D) - 1 < 21); [|lia].
    apply pow10_lt; lia. }
  rewrite (parseInt_text (z <? 0) _ (Z.abs z)).
  - destruct (Z.eqb_spec (Z.abs z) 0); [lia|]. cbn [andb]. now rewrite sign_of_abs.
  - now apply print_finite_head.
  - rewrite parse_print_finite_integer by (split; [lia|exact Hn]) || exact Hds'.
    f_equal. rewrite <- Hr. rewrite <- Happ at 2.
    rewrite read_app, (read_shift (replicate _ _)), length_replicate, read_zeros.
    replace (Z.of_nat (length D - length (d :: r)))
      with (Z.of_nat (length D) - Z.of_nat (length (d :: r))) by lia.
    lia.
Qed.

(** From 10^21 on an integer prints in exponent notation, and [parseInt]
    reads its first digit. *)
Lemma parseInt_Int_exponent (z j : Z) :
  10 ^ 21 <= Z.abs z -> 0 <= j -> 10 ^ j <= Z.abs z < 10 ^ (j + 1) ->
  JS.parseInt (JS.Int z) = JS.Int (Z.sgn z * (Z.abs z / 10 ^ j)).
Proof.
  intros Hbig Hj Hdec. unfold JS.parseInt, JS.ToString.
  assert (Hz : z <> 0) by (intros ->; cbn in Hbig; lia).
  destruct (Z.eqb_spec z 0) as [|_]; [contradiction|]. cbv zeta.
  destruct (digits_spec (Z.abs z)) as (d & ds & HD & Hd & Hds & Hr); [lia|].
  pose proof (digits_length (Z.abs z) ltac:(lia)) as Hlen.
  rewrite HD in *. set (D := d :: ds) in *.
  destruct (strip_zeros_head d ds ltac:(lia)) as [r Hs]. fold D in Hs.
  pose proof (strip_zeros_Forall _ _ Hds) as Hds'.
  rewrite Hs in *.
  assert (Hn : 21 < Z.of_nat (length D)) by (apply pow10_lt; lia).
  assert (Hjk : j = Z.of_nat (length ds)).
  { apply (decade_unique (Z.abs z)); try lia.
    unfold D in Hlen. cbn [length] in Hlen. rewrite Nat2Z.inj_succ in Hlen.
    replace (Z.succ (Z.of_nat (length ds)) - 1) with (Z.of_nat (length ds)) in Hlen by lia.
    replace (Z.of_nat (length ds) + 1) with (Z.succ (Z.of_nat (length ds))) by lia.
    exact Hlen. }
  rewrite (parseInt_text (z <? 0) _ d).
  - destruct (Z.eqb_spec d 0); [lia|]. cbn [andb]. f_equal.
    rewrite (read_first d ds Hds) at 1. fold D. rewrite Hr, <- Hjk.
    unfold JS.sign_of. destruct (Z.ltb_spec z 0); f_equal; lia.
  - now apply print_finite_head.
  - apply parse_print_finite_exponent; [exact Hds'|]. right. exact Hn.
Qed.

Section Fractions.

Variables (neg : bool) (q : N) (d : JS.NonZeroDigit) (f : positive).

Let s := JS.significand q d.
Let F := Z.pos f.

Lemma significand_pos : 0 < JS.significand q d.
Proof. unfold JS.significand. destruct d; cbn [JS.digit_of]; lia. Qed.

(** A fraction of magnitude at least 1 and below 10^21 prints with its
    integer part before the point, which is what [parseInt] reads. *)
Lemma parseInt_Frac_integer_part :
  10 ^ F <= s < 10 ^ (F + 21) ->
  JS.parseInt (JS.Frac neg q d f) = JS.Int (JS.sign_of neg * (s / 10 ^ F)).
Proof.
  intros Hs. unfold JS.parseInt, JS.ToString. cbv zeta. fold s.
  pose proof significand_pos as Hpos. fold s in Hpos.
  destruct (digits_spec s Hpos) as (d0 & ds & HD & Hd & Hds & Hr).
  pose proof (digits_length s Hpos) as Hlen.
  rewrite HD in *. set (D := d0 :: ds) in *.
  assert (HkF : F < Z.of_nat (length D)) by (apply pow10_lt; unfold F in *; lia).
  assert (Hk21 : Z.of_nat (length D) - 1 < F + 21)
    by (apply pow10_lt; unfold F in *; lia).
  assert (Hq : 1 <= s / 10 ^ F).
  { apply Z.div_le_lower_bound; [apply Z.pow_pos_nonneg; unfold F; lia|lia]. }
  rewrite (parseInt_text neg _ (s / 10 ^ F)).
  - destruct (Z.eqb_spec (s / 10 ^ F) 0); [lia|]. reflexivity.
  - now apply print_finite_head.
  - subst D. rewrite parse_print_finite_fraction; try exact Hds; unfold F in *; try lia.
    rewrite Hr. do 3 f_equal. lia.
Qed.

(** A fraction below 1 and not below 10^-6 in magnitude prints as "0."
    and its digits: [parseInt] reads a zero, with the sign of the number. *)
Lemma parseInt_Frac_zero :
  10 ^ F <= s * 10 ^ 6 -> s < 10 ^ F ->
  JS.parseInt (JS.Frac neg q d f) = if neg then JS.NegZero else JS.Int 0.
Proof.
  intros Hlo Hhi. unfold JS.parseInt, JS.ToString. cbv zeta. fold s.
  pose proof significand_pos as Hpos. fold s in Hpos.
  destruct (digits_spec s Hpos) as (d0 & ds & HD & Hd & Hds & Hr).
  pose proof (digits_length s Hpos) as Hlen.
  rewrite HD in *. set (D := d0 :: ds) in *.
  assert (HkF : Z.of_nat (length D) - 1 < F) by (apply pow10_lt; unfold F in *; lia).
  assert (Hk6 : F < Z.of_nat (length D) + 6).
  { apply pow10_lt; [lia|]. rewrite Z.pow_add_r by lia. lia. }
  rewrite (parseInt_text neg _ 0).
  - destruct neg; reflexivity.
  - now apply print_finite_head.
  - subst D. apply parse_print_finite_zero. unfold F in *. lia.
Qed.

(** A fraction below 10^-6 in magnitude (or, with more digits than a
    double has, from 10^21 on) prints in exponent notation, and [parseInt]
    reads its first digit. *)
Lemma parseInt_Frac_exponent (j : Z) :
  s * 10 ^ 6 < 10 ^ F \/ 10 ^ (F + 21) <= s ->
  0 <= j -> 10 ^ j <= s < 10 ^ (j + 1) ->
  JS.parseInt (JS.Frac neg q d f) = JS.Int (JS.sign_of neg * (s / 10 ^ j)).
Proof.
  intros Hs Hj Hdec. unfold JS.parseInt, JS.ToString. cbv zeta. fold s.
  pose proof significand_pos as Hpos. fold s in Hpos.
  destruct (digits_spec s Hpos) as (d0 & ds & HD & Hd & Hds & Hr).
  pose proof (digits_length s Hpos) as Hlen.
  rewrite HD in *. set (D := d0 :: ds) in *.
  assert (Hn : Z.of_nat (length D) - F < -5 \/ 21 < Z.of_nat (length D) - F).
  { destruct Hs as [Hs|Hs]; [left|right].
    - assert (Z.of_nat (length D) - 1 + 6 < F); [|lia].
      apply pow10_lt; [unfold F; lia|].
      rewrite Z.pow_add_r; [|subst D; cbn [length]; lia|lia].
      assert (0 < 10 ^ 6) by lia. nia.
    - assert (F + 21 < Z.of_nat (length D)); [|lia]. apply pow10_lt; lia. }
  assert (Hjk : j = Z.of_nat (length ds)).
  { apply (decade_unique s); try lia.
    unfold D in Hlen. cbn [length] in Hlen. rewrite Nat2Z.inj_succ in Hlen.
    replace (Z.succ (Z.of_nat (length ds)) - 1) with (Z.of_nat (length ds)) in Hlen by lia.
    replace (Z.of_nat (length ds) + 1) with (Z.succ (Z.of_nat (length ds))) by lia.
    exact Hlen. }
  rewrite (parseInt_text neg _ d0).
  - destruct (Z.eqb_spec d0 0); [lia|]. cbn [andb]. do 2 f_equal.
    rewrite (read_first d0 ds Hds) at 1. fold D. now rewrite Hr, <- Hjk.
  - now apply print_finite_head.
  - subst D. apply parse_print_finite_exponent; [exact Hds|]. exact Hn.
Qed.

End Fractions.

(** ** The roll limit of a new game *)

Lemma parseInt_not_finite :
  JS.parseInt JS.NaN = JS.NaN /\ JS.parseInt JS.Infinity = JS.NaN
  /\ JS.parseInt JS.NegInfinity = JS.NaN.
Proof. repeat split. Qed.

Lemma newMaxRolls_custom (r : State) :
  limitEnabled r = true -> maxRollsSelection r = "other"%string ->
  newMaxRolls r = JS.or (JS.parseInt (customMaxRolls r)) (JS.Int 10).
Proof.
  intros HL HS. unfold newMaxRolls. rewrite HL, HS. reflexivity.
Qed.

(** Whatever the custom value, [parseInt(customMaxRolls) || 10] is an
    integer other than 0. *)
Lemma custom_limit_integer (x : JS.Number) :
  exists z, z <> 0 /\ JS.or (JS.parseInt x) (JS.Int 10) = JS.Int z.
Proof.
  unfold JS.parseInt, JS.parseInt_string.
  destruct (JS.strip_sign _) as [sign s]. destruct (JS.strip_prefix s) as [radix s'].
  destruct (JS.parse_digits radix s' None) as [m|]; [|now exists 10].
  destruct ((m =? 0) && (sign <? 0)); [now exists 10|].
  destruct (Z.eq_dec (sign * m) 0) as [Hz|Hz].
  - rewrite Hz. now exists 10.
  - exists (sign * m). split; [exact Hz|].
    unfold JS.or, JS.truthy. destruct (sign * m); [contradiction| |]; reflexivity.
Qed.

(** C3, as the code has it.  The limit of a new game is unbounded when the
    limit is disabled, 3 when it is enabled with the selection "3", and
    with the selection "other" it is [parseInt(customMaxRolls) || 10]:
    the integer that [parseInt] reads from the text of the custom value,
    with 10 in its place when that is [NaN], [0] or [-0].  By the custom
    value:
    - [NaN], the infinities and both zeros give 10 (as does text such as
      "abc");
    - an integer other than 0 and below 10^21 in magnitude is kept as it
      is, negative or not;
    - a fraction printed with digits before the point (magnitude from 1
      and below 10^21) gives its integer part, rounded toward zero and so
      negative for a negative fraction;
    - a fraction printed as "0." and digits (magnitude below 1 and from
      10^-6) gives 10;
    - a number printed in exponent notation (magnitude from 10^21, or
      below 10^-6) gives its first digit, with the sign of the number. *)
Theorem startNewGame_maxRolls (r : State) (g : Rng) (s : State) :
  maxRolls ((startNewGame r g).1 s) = newMaxRolls r
  /\ (limitEnabled r = false -> newMaxRolls r = JS.Infinity)
  /\ (limitEnabled r = true -> maxRollsSelection r = "3"%string ->
      newMaxRolls r = JS.Int 3)
  /\ (limitEnabled r = true -> maxRollsSelection r = "other"%string ->
      newMaxRolls r = JS.or (JS.parseInt (customMaxRolls r)) (JS.Int 10))
  /\ (limitEnabled r = true -> maxRollsSelection r = "other"%string ->
      match customMaxRolls r with
      | JS.NaN | JS.Infinity | JS.NegInfinity | JS.NegZero =>
          newMaxRolls r = JS.Int 10
      | JS.Int z =>
          (z = 0 -> newMaxRolls r = JS.Int 10)
          /\ (z <> 0 -> Z.abs z < 10 ^ 21 -> newMaxRolls r = JS.Int z)
          /\ (forall j,
                10 ^ 21 <= Z.abs z -> 0 <= j -> 10 ^ j <= Z.abs z < 10 ^ (j + 1) ->
                newMaxRolls r = JS.Int (Z.sgn z * (Z.abs z / 10 ^ j)))
      | JS.Frac neg q d f =>
          let m := JS.significand q d in
          (10 ^ Z.pos f <= m < 10 ^ (Z.pos f + 21) ->
           newMaxRolls r = JS.Int (JS.sign_of neg * (m / 10 ^ Z.pos f)))
          /\ (10 ^ Z.pos f <= m * 10 ^ 6 -> m < 10 ^ Z.pos f ->
              newMaxRolls r = JS.Int 10)
          /\ (forall j,
                m * 10 ^ 6 < 10 ^ Z.pos f \/ 10 ^ (Z.pos f + 21) <= m ->
                0 <= j -> 10 ^ j <= m < 10 ^ (j + 1) ->
                newMaxRolls r = JS.Int (JS.sign_of neg * (m / 10 ^ j)))
      end)
  /\ JS.or (JS.parseInt_string "abc") (JS.Int 10) = JS.Int 10.
Proof.
  split; [apply startNewGame_fields|]. split; [|split; [|split; [|split]]].
  - intros H. unfold newMaxRolls. now rewrite H.
  - intros HL HS. unfold newMaxRolls. rewrite HL, HS. reflexivity.
  - apply newMaxRolls_custom.
  - intros HL HS. rewrite (newMaxRolls_custom r HL HS).
    destruct (customMaxRolls r) as [| | |z| |neg q d f]; try reflexivity.
    + split; [intros ->; reflexivity|]. split.
      * intros Hz Hlt. rewrite (parseInt_Int z Hz Hlt).
        unfold JS.or, JS.truthy. destruct z; [contradiction| |]; reflexivity.
      * intros j Hbig Hj Hdec. rewrite (parseInt_Int_exponent z j Hbig Hj Hdec).
        assert (1 <= Z.abs z / 10 ^ j).
        { apply Z.div_le_lower_bound; [apply Z.pow_pos_nonneg; lia|lia]. }
        unfold JS.or, JS.truthy.
        destruct (Z.sgn z * (Z.abs z / 10 ^ j)) eqn:E; [lia| |]; reflexivity.
    + cbv zeta. split; [|split].
      * intros Hm. rewrite (parseInt_Frac_integer_part neg q d f Hm).
        assert (1 <= JS.significand q d / 10 ^ Z.pos f).
        { apply Z.div_le_lower_bound; [apply Z.pow_pos_nonneg; lia|lia]. }
        unfold JS.or, JS.truthy.
        destruct (JS.sign_of neg * _) eqn:E; [|reflexivity..].
        unfold JS.sign_of in E. destruct neg; lia.
      * intros Hlo Hhi. rewrite (parseInt_Frac_zero neg q d f Hlo Hhi).
        destruct neg; reflexivity.
      * intros j Hm Hj Hdec. rewrite (parseInt_Frac_exponent neg q d f j Hm Hj Hdec).
        assert (1 <= JS.significand q d / 10 ^ j).
        { apply Z.div_le_lower_bound; [apply Z.pow_pos_nonneg; lia|lia]. }
        unfold JS.or, JS.truthy.
        destruct (JS.sign_of neg * _) eqn:E; [|reflexivity..].
        unfold JS.sign_of in E. destruct neg; lia.
  - reflexivity.
Qed.

Lemma startNewGame_maxRolls_witness :
  let other v :=
    setCustomMaxRolls v
      (setMaxRollsSelection "other" (setLimitEnabled true initialState)) in
  maxRolls ((startNewGame (other (JS.Int 7)) sample_rng).1 initialState) = JS.Int 7
  /\ newMaxRolls (other (JS.Int (-5))) = JS.Int (-5)
  /\ newMaxRolls (other (JS.Frac false 2 JS.D5 1)) = JS.Int 2
  /\ newMaxRolls (other (JS.Frac true 2 JS.D5 1)) = JS.Int (-2)
  /\ newMaxRolls (other (JS.Frac true 0 JS.D5 1)) = JS.Int 10
  /\ newMaxRolls (other (JS.Int (10 ^ 21))) = JS.Int 1.
Proof.
  intros other. split; [|split; [|split; [|split; [|split]]]].
  - destruct (startNewGame_maxRolls (other (JS.Int 7)) sample_rng initialState)
      as (Hmax & _ & _ & _ & Hother & _).
    rewrite Hmax. apply (Hother eq_refl eq_refl); [discriminate|reflexivity].
  - destruct (startNewGame_maxRolls (other (JS.Int (-5))) sample_rng initialState)
      as (_ & _ & _ & _ & Hother & _).
    apply (Hother eq_refl eq_refl); [discriminate|reflexivity].
  - destruct (startNewGame_maxRolls (other (JS.Frac false 2 JS.D5 1)) sample_rng
                initialState) as (_ & _ & _ & _ & Hother & _).
    apply (Hother eq_refl eq_refl). vm_compute. split; [discriminate|reflexivity].
  - destruct (startNewGame_maxRolls (other (JS.Frac true 2 JS.D5 1)) sample_rng
                initialState) as (_ & _ & _ & _ & Hother & _).
    apply (Hother eq_refl eq_refl). vm_compute. split; [discriminate|reflexivity].
  - destruct (startNewGame_maxRolls (other (JS.Frac true 0 JS.D5 1)) sample_rng
                initialState) as (_ & _ & _ & _ & Hother & _).
    apply (Hother eq_refl eq_refl); vm_compute; [discriminate|reflexivity].
  - destruct (startNewGame_maxRolls (other (JS.Int (10 ^ 21))) sample_rng
                initialState) as (_ & _ & _ & _ & Hother & _).
    apply (proj2 (proj2 (Hother eq_refl eq_refl)) 21); vm_compute;
      [discriminate|discriminate|split; [discriminate|reflexivity]].
Defined.

(** With the limit enabled, "other" selected and -5 typed as the custom
    value, the limit of the new game is -5 and not 10. *)
Lemma negative_custom_limit_is_kept :
  ~ (forall r z g s,
        limitEnabled r = true -> maxRollsSelection r = "other"%string ->
        customMaxRolls r = JS.Int z -> z < 0 ->
        maxRolls ((startNewGame r g).1 s) = JS.Int 10).
Proof.
  intros H.
  specialize (H (setCustomMaxRolls (JS.Int (-5))
                   (setMaxRollsSelection "other" (setLimitEnabled true initialState)))
                (-5) sample_rng initialState eq_refl eq_refl eq_refl ltac:(lia)).
  vm_compute in H. discriminate H.
Qed.

(** ** The effect and the options *)

Lemma same_eq (a b : JS.Number) : JS.same a b = true <-> a = b.
Proof.
  unfold JS.same.
  destruct a as [| | |[| |]| |], b as [| | |[| |]| |];
    rewrite ?bool_decide_eq_true; split; congruence.
Qed.

Lemma deps_changed_false_iff (prev next : State) :
  deps_changed prev next = false <->
  numDice prev = numDice next /\ limitEnabled prev = limitEnabled next
  /\ maxRollsSelection prev = maxRollsSelection next
  /\ customMaxRolls prev = customMaxRolls next.
Proof.
  unfold deps_changed. rewrite negb_false_iff, !andb_true_iff.
  rewrite Nat.eqb_eq, Bool.eqb_true_iff, String.eqb_eq, same_eq. tauto.
Qed.

Lemma deps_changed_true_iff (prev next : State) :
  deps_changed prev next = true <->
  ~ (numDice prev = numDice next /\ limitEnabled prev = limitEnabled next
     /\ maxRollsSelection prev = maxRollsSelection next
     /\ customMaxRolls prev = customMaxRolls next).
Proof.
  rewrite <- deps_changed_false_iff. destruct (deps_changed prev next); split;
    congruence.
Qed.

Lemma useEffect_unchanged (prev : State) (w : World) :
  numDice prev = numDice (state w) -> limitEnabled prev = limitEnabled (state w) ->
  maxRollsSelection prev = maxRollsSelection (state w) ->
  customMaxRolls prev = customMaxRolls (state w) ->
  useEffect prev w = w.
Proof.
  intros. unfold useEffect.
  replace (deps_changed prev (state w)) with false; [reflexivity|].
  symmetry. now apply deps_changed_false_iff.
Qed.

Lemma applyRand_state (m : Rand Update) (w : World) :
  state (applyRand m w) = (m (rng w)).1 (state w)
  /\ timers (applyRand m w) = timers w
  /\ next_timer (applyRand m w) = next_timer w.
Proof. unfold applyRand. destruct (m (rng w)). repeat split. Qed.

(** C10. Choosing a theme or opening and closing the options panel sets
    that one state variable and does nothing else: the dice, the frozen
    set, the roll counter, the limit and the score are the same, no new
    game is started (nothing is drawn from the generator) and the pending
    timers are untouched. *)
Theorem presentation_only (w : World) (e : Event) :
  presentation e = true ->
  offered e ->
  exists w',
    step w e = Some w'
    /\ dice (state w') = dice (state w)
    /\ frozenIds (state w') = frozenIds (state w)
    /\ currentRoll (state w') = currentRoll (state w)
    /\ maxRolls (state w') = maxRolls (state w)
    /\ score (state w') = score (state w)
    /\ isRolling (state w') = isRolling (state w)
    /\ timers w' = timers w
    /\ rng w' = rng w.
Proof.
  intros He Hoff. unfold step.
  destruct e; try discriminate He; cbn [handle offered] in *.
  - rewrite (bool_decide_eq_true_2 _ Hoff).
    rewrite useEffect_unchanged by reflexivity. eexists. repeat split.
  - rewrite useEffect_unchanged by reflexivity. eexists. repeat split.
Qed.

Lemma presentation_only_witness :
  exists w',
    step (mount sample_rng) (SelectTheme "Ocean") = Some w'
    /\ dice (state w') = dice (state (mount sample_rng))
    /\ rng w' = rng (mount sample_rng).
Proof.
  assert (Hoff : offered (SelectTheme "Ocean")) by (cbn; repeat constructor).
  destruct (presentation_only (mount sample_rng) (SelectTheme "Ocean") eq_refl Hoff)
    as (w' & Hstep & Hdice & _ & _ & _ & _ & _ & _ & Hrng).
  exists w'. repeat split; assumption.
Defined.

(** C9. When one of the four option controls delivers a value other than
    the current one, the effect runs [startNewGame] on the render that
    holds the new value: the resulting state is that of the new game, with
    an empty frozen set and a roll counter of 0. *)
Theorem option_change_resets (w : World) (e : Event) (u : Update) :
  option_update (state w) e = Some u ->
  offered e ->
  changes_option (state w) e ->
  let w' := applyRand (startNewGame (u (state w))) (applyUpdate u w) in
  step w e = Some w'
  /\ frozenIds (state w') = ∅
  /\ currentRoll (state w') = 0%nat.
Proof.
  intros Hu Hoff Hch w'. subst w'. split.
  - unfold step.
    assert (Hh : handle e w = Some (applyUpdate u w)).
    { destruct e; try discriminate Hu; cbn [option_update handle offered] in *;
        injection Hu as <-; try reflexivity.
      - now rewrite (bool_decide_eq_true_2 _ Hoff).
      - now rewrite (bool_decide_eq_true_2 _ Hoff). }
    rewrite Hh. unfold useEffect.
    replace (deps_changed (state w) (state (applyUpdate u w))) with true; [reflexivity|].
    symmetry. apply deps_changed_true_iff. intros (H1 & H2 & H3 & H4).
    destruct e; try discriminate Hu; cbn [option_update changes_option] in *;
      injection Hu as <-; cbn in H1, H2, H3, H4.
    + congruence.
    + destruct (limitEnabled (state w)); discriminate.
    + congruence.
    + congruence.
  - destruct (applyRand_state (startNewGame (u (state w))) (applyUpdate u w)) as [-> _].
    split; apply startNewGame_fields.
Qed.

Lemma option_change_resets_witness :
  match run (mount sample_rng) [ClickRoll; TimeoutFires 0; ClickDie 1] with
  | Some w =>
      (1%nat ∈ frozenIds (state w) /\ currentRoll (state w) = 1%nat)
      /\ exists w',
           step w (SelectNumDice 3) = Some w'
           /\ frozenIds (state w') = ∅ /\ currentRoll (state w') = 0%nat
  | None => False
  end
  /\ match run (mount sample_rng)
             [ToggleOptions; ToggleLimit; SelectMaxRolls "other";
              InputCustomMaxRolls (JS.Int 0); ClickRoll; TimeoutFires 0;
              ClickDie 1] with
     | Some w =>
         (customMaxRolls (state w) = JS.Int 0
          /\ 1%nat ∈ frozenIds (state w) /\ currentRoll (state w) = 1%nat)
         /\ exists w',
              step w (InputCustomMaxRolls JS.NegZero) = Some w'
              /\ frozenIds (state w') = ∅ /\ currentRoll (state w') = 0%nat
     | None => False
     end.
Proof.
  split.
  - destruct (run (mount sample_rng) _) as [w|] eqn:Hrun;
      [|vm_compute in Hrun; discriminate Hrun].
    assert (Hw : numDice (state w) = 5%nat
                 /\ bool_decide (1%nat ∈ frozenIds (state w)) = true
                 /\ currentRoll (state w) = 1%nat).
    { vm_compute in Hrun. injection Hrun as <-. repeat split. }
    destruct Hw as (Hn & Hf & Hc). apply bool_decide_eq_true_1 in Hf.
    split; [now split|].
    assert (Hoff : offered (SelectNumDice 3)) by (cbn; repeat constructor).
    assert (Hch : changes_option (state w) (SelectNumDice 3))
      by (cbn; rewrite Hn; discriminate).
    eexists.
    exact (option_change_resets w (SelectNumDice 3) (setNumDice 3) eq_refl Hoff Hch).
  - destruct (run (mount sample_rng) _) as [w|] eqn:Hrun;
      [|vm_compute in Hrun; discriminate Hrun].
    assert (Hw : customMaxRolls (state w) = JS.Int 0
                 /\ bool_decide (1%nat ∈ frozenIds (state w)) = true
                 /\ currentRoll (state w) = 1%nat).
    { vm_compute in Hrun. injection Hrun as <-. repeat split. }
    destruct Hw as (Hv & Hf & Hc). apply bool_decide_eq_true_1 in Hf.
    split; [now repeat split|].
    assert (Hch : changes_option (state w) (InputCustomMaxRolls JS.NegZero))
      by (cbn; rewrite Hv; discriminate).
    eexists.
    exact (option_change_resets w (InputCustomMaxRolls JS.NegZero)
             (setCustomMaxRolls JS.NegZero) eq_refl I Hch).
Defined.

(** ** Induction over the reachable worlds *)

Lemma run_app (es1 es2 : list Event) :
  forall w, run w (es1 ++ es2) = match run w es1 with
                                 | Some w1 => run w1 es2
                                 | None => None
                                 end.
Proof.
  induction es1 as [|e es1 IH]; intros w; [reflexivity|].
  cbn [app run]. destruct (step w e); [apply IH|reflexivity].
Qed.

Lemma reachable_mount (g : Rng) : reachable (mount g).
Proof. now exists g, []. Qed.

Lemma reachable_step (w w' : World) (e : Event) :
  reachable w -> step w e = Some w' -> reachable w'.
Proof.
  intros (g & es & Hrun) Hstep. exists g, (es ++ [e]).
  rewrite run_app, Hrun. cbn [run]. now rewrite Hstep.
Qed.

Lemma reachable_run (es : list Event) :
  forall w w', reachable w -> run w es = Some w' -> reachable w'.
Proof.
  induction es as [|e es IH]; intros w w' Hr Hrun.
  - now injection Hrun as <-.
  - cbn [run] in Hrun. destruct (step w e) as [w1|] eqn:Hstep; [|discriminate].
    eapply IH; [|exact Hrun]. eapply reachable_step; eassumption.
Qed.

(** A property of the first render that every step keeps holds in every
    reachable world. *)
Lemma reachable_inv (P : World -> Prop) :
  (forall g, P (mount g)) ->
  (forall w e w', reachable w -> P w -> step w e = Some w' -> P w') ->
  forall w, reachable w -> P w.
Proof.
  intros Hmount Hstep w (g & es & Hrun).
  assert (H : forall es w0 w1, reachable w0 -> P w0 -> run w0 es = Some w1 -> P w1).
  { clear -Hstep. induction es as [|e es IH]; intros w0 w1 Hr HP Hrun.
    - now injection Hrun as <-.
    - cbn [run] in Hrun. destruct (step w0 e) as [w'|] eqn:He; [|discriminate].
      eapply IH; [| |exact Hrun].
      + eapply reachable_step; eassumption.
      + eapply Hstep; eassumption. }
  eapply H; [apply reachable_mount|apply Hmount|exact Hrun].
Qed.

(** ** The roll counter and the limit *)

Lemma startNewGame_limit_ok (r s : State) (g : Rng) :
  maxRollsSelection r ∈ maxRollsOptions ->
  maxRollsSelection s = maxRollsSelection r ->
  limit_ok ((startNewGame r g).1 s).
Proof.
  intros Hsel Heq.
  pose proof (startNewGame_fields r g s) as (_ & HC & _ & HM & _ & _ & HS & _).
  cbv zeta in *. unfold limit_ok. rewrite HS, HC, HM, Heq. split; [exact Hsel|].
  destruct (limitEnabled r) eqn:HL; [|left; unfold newMaxRolls; now rewrite HL].
  right. unfold maxRollsOptions in Hsel.
  apply elem_of_cons in Hsel as [H3|Hsel].
  - exists 3. unfold newMaxRolls. rewrite HL, H3. split; [reflexivity|]. lia.
  - apply list_elem_of_singleton in Hsel.
    rewrite (newMaxRolls_custom r HL Hsel).
    destruct (custom_limit_integer (customMaxRolls r)) as (z & _ & ->).
    exists z. split; [reflexivity|].
    destruct (Z.le_gt_cases 0 z); [left|right]; lia.
Qed.

Lemma rollDice_limit_ok (w : World) :
  limit_ok (state w) -> limit_ok (state (rollDice (state w) w)).
Proof.
  intros [Hsel Hlim]. unfold rollDice.
  destruct (JS.ge _ _) eqn:Hge; [now split|].
  split; [exact Hsel|]. cbn.
  destruct Hlim as [Hinf|(z & Hz & Hle)]; [now left|right].
  exists z. split; [exact Hz|]. left.
  rewrite Hz in Hge. cbn in Hge. apply Z.leb_gt in Hge. lia.
Qed.

(** What a handler of the game in progress leaves alone. *)
Lemma handle_in_game (w w1 : World) (e : Event) :
  in_game e = true -> handle e w = Some w1 ->
  numDice (state w1) = numDice (state w)
  /\ limitEnabled (state w1) = limitEnabled (state w)
  /\ maxRollsSelection (state w1) = maxRollsSelection (state w)
  /\ customMaxRolls (state w1) = customMaxRolls (state w)
  /\ maxRolls (state w1) = maxRolls (state w)
  /\ (e <> ClickRoll -> currentRoll (state w1) = currentRoll (state w)).
Proof.
  intros He H. destruct e; try discriminate He; cbn [handle] in H; case_guards H;
    try solve [injection H as <-; repeat split]; try injection H as <-.
  - unfold rollDice. destruct (JS.ge _ _); repeat split; congruence.
  - unfold rollingInterval in H. destruct (timers w !! t); [|discriminate].
    destruct (reroll _ _ _). injection H as <-. repeat split.
  - unfold rollTimeout in H. destruct (timers w !! t); [|discriminate].
    destruct (reroll _ _ _). injection H as <-. repeat split.
  - unfold toggleFreeze. destruct (isRolling (state w) || _); repeat split.
  - unfold handleDragEnter. destruct (bool_decide _); repeat split.
  - unfold handleDrop in Hdrop. destruct (draggedId (state w)) as [A|].
    + destruct (A =? targetId)%nat; [injection Hdrop as <-; repeat split|].
      destruct (JS.splice_delete1 _ _) as [[|x ?] ?]; [discriminate|].
      injection Hdrop as <-. repeat split.
    + injection Hdrop as <-. repeat split.
Qed.

Lemma step_in_game (w w' : World) (e : Event) :
  in_game e = true -> step w e = Some w' -> handle e w = Some w'.
Proof.
  intros He H. unfold step in H. destruct (handle e w) as [w1|] eqn:Hh; [|discriminate].
  pose proof (handle_in_game w w1 e He Hh) as (H1 & H2 & H3 & H4 & _).
  rewrite useEffect_unchanged in H by congruence. exact H.
Qed.

Lemma step_in_game_counter (w w' : World) (e : Event) :
  in_game e = true -> step w e = Some w' ->
  (currentRoll (state w) <= currentRoll (state w'))%nat
  /\ maxRolls (state w') = maxRolls (state w).
Proof.
  intros He H. apply step_in_game in H; [|exact He].
  pose proof (handle_in_game w w' e He H) as (_ & _ & _ & _ & HM & HC).
  split; [|exact HM].
  destruct e; try (rewrite HC by discriminate; lia).
  cbn [handle] in H. injection H as <-. unfold rollDice.
  destruct (JS.ge _ _); cbn; lia.
Qed.

Lemma run_in_game_counter (es : list Event) :
  forall w w', Forall (fun e => in_game e = true) es -> run w es = Some w' ->
    (currentRoll (state w) <= currentRoll (state w'))%nat
    /\ maxRolls (state w') = maxRolls (state w).
Proof.
  induction es as [|e es IH]; intros w w' Hes Hrun.
  - injection Hrun as <-. split; [lia|reflexivity].
  - cbn [run] in Hrun. destruct (step w e) as [w1|] eqn:Hstep; [|discriminate].
    apply Forall_cons in Hes as [He Hes].
    destruct (step_in_game_counter w w1 e He Hstep) as [H1 H2].
    destruct (IH w1 w' Hes Hrun) as [H3 H4]. split; [lia|congruence].
Qed.

Lemma useEffect_limit_ok (prev : State) (w : World) :
  maxRollsSelection (state w) ∈ maxRollsOptions ->
  (deps_changed prev (state w) = false -> limit_ok (state w)) ->
  limit_ok (state (useEffect prev w)).
Proof.
  intros Hsel Hok. unfold useEffect. destruct (deps_changed prev (state w)); [|auto].
  destruct (applyRand_state (startNewGame (state w)) w) as [-> _].
  now apply startNewGame_limit_ok.
Qed.

Lemma step_limit_ok (w w' : World) (e : Event) :
  limit_ok (state w) -> step w e = Some w' -> limit_ok (state w').
Proof.
  intros Hok H. destruct (in_game e) eqn:He.
  - apply step_in_game in H; [|exact He].
    destruct e; try discriminate He;
      try (pose proof (handle_in_game w w' _ He H) as (_ & _ & HS & _ & HM & HC);
           specialize (HC ltac:(discriminate));
           unfold limit_ok; rewrite HS, HM, HC; exact Hok).
    cbn [handle] in H. injection H as <-. now apply rollDice_limit_ok.
  - unfold step in H. destruct (handle e w) as [w1|] eqn:Hh; [|discriminate].
    injection H as <-. destruct Hok as [Hsel Hlim].
    destruct e; try discriminate He; cbn [handle] in Hh.
    + injection Hh as <-. apply useEffect_limit_ok.
      * destruct (applyRand_state (startNewGame (state w)) w) as [-> _].
        now apply startNewGame_limit_ok.
      * intros _. destruct (applyRand_state (startNewGame (state w)) w) as [-> _].
        now apply startNewGame_limit_ok.
    + destruct (bool_decide _); [|discriminate]. injection Hh as <-.
      apply useEffect_limit_ok; [exact Hsel|]. intros _. now split.
    + injection Hh as <-. apply useEffect_limit_ok; [exact Hsel|]. intros _. now split.
    + destruct (bool_decide_reflect (v ∈ maxRollsOptions)) as [Hv|]; [|discriminate].
      injection Hh as <-. apply useEffect_limit_ok; [exact Hv|].
      intros Hd. apply deps_changed_false_iff in Hd as (_ & _ & Hd & _).
      cbn in Hd. split; [exact Hv|exact Hlim].
    + injection Hh as <-.
      apply useEffect_limit_ok; [exact Hsel|]. intros _. now split.
Qed.

Lemma reachable_limit_ok (w : World) : reachable w -> limit_ok (state w).
Proof.
  intros (g & es & Hrun).
  assert (Hmount : limit_ok (state (mount g))).
  { unfold mount.
    destruct (applyRand_state (startNewGame initialState)
                (mkWorld initialState ∅ 0 g)) as [-> _].
    apply startNewGame_limit_ok; [|reflexivity]. cbn. constructor. }
  revert Hrun Hmount. generalize (mount g). clear g.
  induction es as [|e es IH]; intros w0 Hrun Hok.
  - injection Hrun as <-. exact Hok.
  - cbn [run] in Hrun. destruct (step w0 e) as [w1|] eqn:Hstep; [|discriminate].
    eapply IH; [exact Hrun|]. eapply step_limit_ok; eassumption.
Qed.

(** The limit in force is the one [startNewGame] computes from the
    options of the state: every event that changes an option is followed
    by the effect. *)
Lemma newMaxRolls_ext (r s : State) :
  limitEnabled r = limitEnabled s ->
  maxRollsSelection r = maxRollsSelection s ->
  customMaxRolls r = customMaxRolls s ->
  newMaxRolls r = newMaxRolls s.
Proof. intros H1 H2 H3. unfold newMaxRolls. now rewrite H1, H2, H3. Qed.

Lemma applyRand_startNewGame_sync (w : World) :
  let w' := applyRand (startNewGame (state w)) w in
  maxRolls (state w') = newMaxRolls (state w').
Proof.
  cbv zeta. destruct (applyRand_state (startNewGame (state w)) w) as [-> _].
  pose proof (startNewGame_fields (state w) (rng w) (state w))
    as (_ & _ & _ & HM & _ & HL & HS & HC).
  cbv zeta in *. rewrite HM. symmetry. now apply newMaxRolls_ext.
Qed.

Lemma step_sync (w w' : World) (e : Event) :
  maxRolls (state w) = newMaxRolls (state w) ->
  step w e = Some w' ->
  maxRolls (state w') = newMaxRolls (state w').
Proof.
  intros Hs H. destruct (in_game e) eqn:He.
  - apply step_in_game in H; [|exact He].
    destruct (handle_in_game w w' e He H) as (_ & HL & HS & HC & HM & _).
    rewrite HM, Hs. symmetry. now apply newMaxRolls_ext.
  - unfold step in H. destruct (handle e w) as [w1|] eqn:Hh; [|discriminate].
    injection H as <-. unfold useEffect.
    destruct (deps_changed (state w) (state w1)) eqn:Hd;
      [apply applyRand_startNewGame_sync|].
    apply deps_changed_false_iff in Hd as (_ & HL & HS & HC).
    destruct e; try discriminate He; cbn [handle] in Hh; case_guards Hh;
      injection Hh as <-;
      try (cbn in *; rewrite Hs; now apply newMaxRolls_ext).
    apply applyRand_startNewGame_sync.
Qed.

Lemma reachable_sync (w : World) :
  reachable w -> maxRolls (state w) = newMaxRolls (state w).
Proof.
  revert w. apply reachable_inv.
  - intros g. apply (applyRand_startNewGame_sync (mkWorld initialState ∅ 0 g)).
  - intros w e w' _. apply step_sync.
Qed.

(** C2, as the code has it.  In every reachable state the roll counter
    does not exceed the limit whenever the limit is not negative.  The
    limit is negative only with the limit enabled, "other" selected and a
    custom value from which [parseInt] reads a negative integer; the
    counter then is 0, above the limit, and the roll button does nothing.
    Along the events of a game in
    progress the counter never decreases and the limit stays the same,
    and [rollDice] called with the counter at or above the limit changes
    nothing at all. *)
Theorem currentRoll_within_limit (w : World) :
  reachable w ->
  (JS.le (JS.Int 0) (maxRolls (state w)) = true ->
   JS.le (rolls (state w)) (maxRolls (state w)) = true)
  /\ (JS.le (JS.Int 0) (maxRolls (state w)) = false ->
      currentRoll (state w) = 0%nat
      /\ limitEnabled (state w) = true
      /\ maxRollsSelection (state w) = "other"%string
      /\ (exists z, z < 0 /\ maxRolls (state w) = JS.Int z
                    /\ JS.parseInt (customMaxRolls (state w)) = JS.Int z)
      /\ step w ClickRoll = Some w)
  /\ (forall es w',
        Forall (fun e => in_game e = true) es -> run w es = Some w' ->
        (currentRoll (state w) <= currentRoll (state w'))%nat
        /\ maxRolls (state w') = maxRolls (state w))
  /\ (JS.ge (rolls (state w)) (maxRolls (state w)) = true ->
      step w ClickRoll = Some w).
Proof.
  intros Hr. pose proof (reachable_sync w Hr) as Hsync.
  apply reachable_limit_ok in Hr as [Hsel Hlim].
  unfold JS.le, rolls. split; [|split; [|split]].
  - destruct Hlim as [->|(z & -> & Hz)]; [reflexivity|].
    cbn. intros H0. apply Z.leb_le in H0. apply Z.leb_le. lia.
  - destruct Hlim as [Hinf|(z & Hm & Hz)]; [rewrite Hinf; discriminate|].
    rewrite Hm. cbn. intros H0. apply Z.leb_gt in H0.
    split; [lia|]. rewrite Hm in Hsync. unfold newMaxRolls in Hsync.
    destruct (limitEnabled (state w)); [|discriminate Hsync].
    split; [reflexivity|]. unfold maxRollsOptions in Hsel.
    apply elem_of_cons in Hsel as [H3|Hsel].
    + rewrite H3 in Hsync. vm_compute in Hsync. injection Hsync as ->. lia.
    + apply list_elem_of_singleton in Hsel. split; [exact Hsel|].
      rewrite Hsel in Hsync. cbn [String.eqb Ascii.eqb] in Hsync.
      change (("other" =? "other")%string) with true in Hsync. cbn iota in Hsync.
      split.
      * exists z. split; [exact H0|]. split; [reflexivity|].
        unfold JS.or in Hsync.
        destruct (JS.truthy (JS.parseInt (customMaxRolls (state w))));
          [now symmetry|].
        injection Hsync as ->. lia.
      * unfold step. cbn [handle]. unfold rollDice. rewrite Hm. cbn [JS.ge].
        replace (z <=? Z.of_nat (currentRoll (state w))) with true
          by (symmetry; apply Z.leb_le; lia).
        now rewrite useEffect_unchanged.
  - intros es w'. apply run_in_game_counter.
  - intros Hge. unfold step. cbn [handle]. unfold rollDice. rewrite Hge.
    now rewrite useEffect_unchanged.
Qed.

Lemma currentRoll_within_limit_witness :
  match run (mount sample_rng)
          [ToggleLimit; ClickRoll; IntervalFires 0; TimeoutFires 0; ClickRoll] with
  | Some w => JS.le (rolls (state w)) (maxRolls (state w)) = true
  | None => False
  end
  /\ match run (mount sample_rng)
             [ToggleOptions; ToggleLimit; SelectMaxRolls "other";
              InputCustomMaxRolls (JS.Frac true 2 JS.D5 1); ClickRoll] with
     | Some w => maxRolls (state w) = JS.Int (-2) /\ currentRoll (state w) = 0%nat
     | None => False
     end.
Proof.
  split.
  - destruct (run (mount sample_rng) _) as [w|] eqn:Hrun;
      [|vm_compute in Hrun; discriminate Hrun].
    assert (Hr : reachable w) by (exists sample_rng; eexists; exact Hrun).
    apply (currentRoll_within_limit w Hr).
    assert (Hm : maxRolls (state w) = JS.Int 3)
      by (vm_compute in Hrun; injection Hrun as <-; reflexivity).
    now rewrite Hm.
  - destruct (run (mount sample_rng) _) as [w|] eqn:Hrun;
      [|vm_compute in Hrun; discriminate Hrun].
    assert (Hr : reachable w) by (exists sample_rng; eexists; exact Hrun).
    assert (Hm : maxRolls (state w) = JS.Int (-2))
      by (vm_compute in Hrun; injection Hrun as <-; reflexivity).
    split; [exact Hm|].
    apply (currentRoll_within_limit w Hr). now rewrite Hm.
Defined.

(** After enabling the limit, selecting "other" and typing -5, the state
    has a roll counter of 0 and a limit of -5: the counter exceeds the
    limit. *)
Lemma negative_limit_is_exceeded :
  ~ (forall w, reachable w -> JS.le (rolls (state w)) (maxRolls (state w)) = true).
Proof.
  intros H.
  destruct (run (mount sample_rng)
              [ToggleOptions; ToggleLimit; SelectMaxRolls "other";
               InputCustomMaxRolls (JS.Int (-5))]) as [w|] eqn:Hrun;
    [|vm_compute in Hrun; discriminate Hrun].
  assert (Hr : reachable w) by (exists sample_rng; eexists; exact Hrun).
  specialize (H w Hr).
  vm_compute in Hrun. injection Hrun as <-. vm_compute in H. discriminate H.
Qed.

(** ** Rolling *)

Section Agreement.

Variable F : gset nat.

Lemma reroll_rerolled (ds : list Die) (g : Rng) :
  rerolled F ds (reroll F ds g).1.
Proof.
  apply mapM_Forall2. intros d g'.
  destruct (bool_decide_reflect (id d ∈ F)) as [Hin|Hout].
  - cbn. repeat split; tauto.
  - unfold bind, ret. pose proof (random_face_lt g') as Hlt.
    destruct (random_face g') as [v g'']. cbn in *. repeat split; tauto.
Qed.

Lemma rerolled_agree (ds ds' : list Die) : rerolled F ds ds' -> agree F ds ds'.
Proof. intros H. eapply Forall2_impl; [exact H|]. cbn. tauto. Qed.

Lemma agree_refl (ds : list Die) : agree F ds ds.
Proof.
  apply Forall2_same_length_lookup_2; [reflexivity|]. now intros i d d' -> [= ->].
Qed.

Lemma agree_trans (ds1 ds2 ds3 : list Die) :
  agree F ds1 ds2 -> agree F ds2 ds3 -> agree F ds1 ds3.
Proof.
  intros H12. revert ds3. induction H12 as [|d1 d2 l1 l2 [Hid Hfr] _ IH];
    intros ds3 H23; inversion H23 as [|x d3 y l3 [Hid' Hfr'] Hrest]; subst;
    constructor; [|now apply IH].
  split; [congruence|]. intros Hin.
  rewrite <- (Hfr Hin). apply Hfr'. now rewrite Hid.
Qed.

Lemma reroll_agree (D ds : list Die) (g : Rng) :
  agree F D ds -> agree F D (reroll F ds g).1.
Proof.
  intros H. eapply agree_trans; [exact H|].
  apply rerolled_agree, reroll_rerolled.
Qed.

Lemma agree_ids (ds ds' : list Die) : agree F ds ds' -> map id ds' = map id ds.
Proof. induction 1 as [|d d' l l' [Hid _] _ IH]; simpl; congruence. Qed.

Lemma agree_lookup (ds ds' : list Die) (i : nat) (d : Die) :
  agree F ds ds' -> ds !! i = Some d -> id d ∈ F -> ds' !! i = Some d.
Proof.
  intros H Hd Hin. destruct (Forall2_lookup_l _ _ _ _ _ H Hd) as (d' & Hd' & _ & Hfr).
  now rewrite Hd', (Hfr Hin).
Qed.

Lemma agree_value_of (ds ds' : list Die) (j : nat) :
  agree F ds ds' -> j ∈ F -> value_of j ds' = value_of j ds.
Proof.
  intros H Hj. unfold value_of.
  induction H as [|d d' l l' [Hid Hfr] _ IH]; [reflexivity|].
  cbn [list_find]. rewrite Hid. destruct (decide (id d = j)) as [Heq|Hne].
  - cbn. rewrite Hfr; [reflexivity|]. now rewrite Heq.
  - destruct (list_find _ l') as [[k x]|], (list_find _ l) as [[k' x']|];
      cbn in *; congruence.
Qed.

End Agreement.

Lemma useEffect_timers (prev : State) (w : World) :
  timers (useEffect prev w) = timers w
  /\ next_timer (useEffect prev w) = next_timer w.
Proof.
  unfold useEffect. destruct (deps_changed prev (state w)); [|now split].
  split; apply applyRand_state.
Qed.

(** *** One roll, whatever else happens *)

Section PendingRoll.

Variables (t : nat) (D : list Die) (F : gset nat).

(** Until its own timeout fires, a pending roll keeps the dice and the
    frozen set it was started with, and its animation never touches a
    frozen die. *)
Lemma step_pending (w w' : World) (e : Event) :
  step w e = Some w' -> e <> TimeoutFires t ->
  pending t D F w -> pending t D F w'.
Proof.
  intros Hstep Hne (roll & Hl & HD & HF & HT & Hlt). unfold step in Hstep.
  destruct (handle e w) as [w1|] eqn:Hh; [|discriminate]. injection Hstep as <-.
  unfold pending. destruct (useEffect_timers (state w) w1) as [-> ->].
  assert (Hsame : timers w1 = timers w -> next_timer w1 = next_timer w ->
            pending t D F w1).
  { intros Ht Hn. exists roll. rewrite Ht, Hn. auto. }
  destruct e; cbn [handle] in Hh; case_guards Hh;
    try (injection Hh as <-; apply Hsame;
         first [reflexivity | apply applyRand_state]).
  - injection Hh as <-. clear Hsame. unfold rollDice.
    destruct (JS.ge _ _); [now exists roll|].
    exists roll. cbn. rewrite lookup_insert_ne by lia. repeat split; trivial. lia.
  - unfold rollingInterval in Hh.
    destruct (timers w !! t0) as [roll0|] eqn:Hl0; [|discriminate].
    destruct (reroll _ _ _) as [temp g] eqn:Hre. injection Hh as <-. cbn.
    destruct (decide (t0 = t)) as [->|Hd].
    + rewrite lookup_insert_eq. rewrite Hl in Hl0. injection Hl0 as <-.
      eexists. split; [reflexivity|]. cbn. repeat split; trivial.
      pose proof (reroll_agree F D (tempDice roll) (rng w) HT) as Ha.
      rewrite HF in Hre. now rewrite Hre in Ha.
    + rewrite lookup_insert_ne by exact Hd. now exists roll.
  - unfold rollTimeout in Hh.
    destruct (timers w !! t0) as [roll0|] eqn:Hl0; [|discriminate].
    destruct (reroll _ _ _) as [finalDice g]. injection Hh as <-. cbn.
    rewrite lookup_delete_ne by congruence. now exists roll.
Qed.

Lemma run_pending (es : list Event) :
  forall w w',
    run w es = Some w' -> TimeoutFires t ∉ es ->
    pending t D F w -> pending t D F w'.
Proof.
  induction es as [|e es IH]; intros w w' Hrun Hnot Hp.
  - now injection Hrun as <-.
  - cbn [run] in Hrun. destruct (step w e) as [w1|] eqn:Hstep; [|discriminate].
    apply not_elem_of_cons in Hnot as [Hne Hnot].
    eapply IH; [exact Hrun|exact Hnot|].
    eapply step_pending; [exact Hstep|congruence|exact Hp].
Qed.

(** The timeout of a pending roll fires and stores the dice of the roll
    rerolled. *)
Lemma timeout_pending (w : World) :
  pending t D F w ->
  exists w',
    step w (TimeoutFires t) = Some w'
    /\ dice (state w') = (reroll F D (rng w)).1
    /\ score (state w') = sum_of_faces (dice (state w'))
    /\ isRolling (state w') = false
    /\ timers w' !! t = None.
Proof.
  intros (roll & Hl & HD & HF & _). unfold step. cbn [handle]. unfold rollTimeout.
  rewrite Hl, HD, HF. destruct (reroll F D (rng w)) as [finalDice g].
  eexists. rewrite useEffect_unchanged by reflexivity.
  split; [reflexivity|]. cbn. split; [reflexivity|].
  split; [apply total_sum|]. split; [reflexivity|]. apply lookup_delete_eq.
Qed.

(** Each animation step of a pending roll shows dice that agree with the
    dice of the roll on its frozen set. *)
Lemma interval_pending (w w' : World) :
  pending t D F w -> step w (IntervalFires t) = Some w' ->
  agree F D (dice (state w')).
Proof.
  intros (roll & Hl & HD & HF & HT & _) Hstep.
  apply step_in_game in Hstep; [|reflexivity]. cbn [handle] in Hstep.
  unfold rollingInterval in Hstep. rewrite Hl, HF in Hstep.
  pose proof (reroll_agree F D (tempDice roll) (rng w) HT) as Ha.
  destruct (reroll F (tempDice roll) (rng w)) as [temp g].
  now injection Hstep as <-.
Qed.

End PendingRoll.

(** A roll that starts is pending, under the next timer id, with the dice
    and the frozen set of the render that rolled. *)
Lemma rollDice_pending (w w1 : World) :
  JS.ge (rolls (state w)) (maxRolls (state w)) = false ->
  step w ClickRoll = Some w1 ->
  pending (next_timer w) (dice (state w)) (frozenIds (state w)) w1.
Proof.
  intros Hge Hstep. apply step_in_game in Hstep; [|reflexivity].
  cbn [handle] in Hstep. unfold rollDice in Hstep.
  fold (rolls (state w)) in Hstep. rewrite Hge in Hstep. injection Hstep as <-.
  eexists. cbn. rewrite lookup_insert_eq. split; [reflexivity|]. cbn.
  repeat split; [apply agree_refl|lia].
Qed.



(** *** Rolls in a row *)

Section Coherence.

Variables (F : gset nat) (D : list Die).

Lemma handle_rolling_coherent (w w' : World) (e : Event) :
  rolling e = true -> handle e w = Some w' -> coherent F D w -> coherent F D w'.
Proof.
  intros He H (HF & HD & HT). destruct e; try discriminate He; cbn [handle] in H.
  - injection H as <-. unfold rollDice.
    destruct (JS.ge _ _); [exact (conj HF (conj HD HT))|].
    split; [exact HF|]. split; [exact HD|]. cbn [timers]. intros t roll Hl.
    apply lookup_insert_Some in Hl as [[_ <-]|[_ Hl]]; [|now apply (HT t)].
    cbn. auto.
  - unfold rollingInterval in H.
    destruct (timers w !! t) as [roll|] eqn:Hl; [|discriminate].
    destruct (HT t roll Hl) as (HFr & HDr & HTr).
    pose proof (reroll_agree F D (tempDice roll) (rng w) HTr) as Ht.
    rewrite HFr in H. destruct (reroll F (tempDice roll) (rng w)) as [temp g].
    injection H as <-. cbn in Ht. split; [exact HF|]. split; [exact Ht|].
    cbn [timers]. intros t' roll' Hl'.
    apply lookup_insert_Some in Hl' as [[_ <-]|[_ Hl']]; [|now apply (HT t')].
    cbn. auto.
  - unfold rollTimeout in H. destruct (timers w !! t) as [roll|] eqn:Hl; [|discriminate].
    destruct (HT t roll Hl) as (HFr & HDr & HTr).
    pose proof (reroll_agree F D (roll_dice roll) (rng w) HDr) as Ht.
    rewrite HFr in H. destruct (reroll F (roll_dice roll) (rng w)) as [finalDice g].
    injection H as <-. cbn in Ht. split; [exact HF|]. split; [exact Ht|].
    cbn [timers]. intros t' roll' Hl'.
    apply lookup_delete_Some in Hl' as [_ Hl']. now apply (HT t').
Qed.

Lemma rolling_in_game (e : Event) : rolling e = true -> in_game e = true.
Proof. now destruct e. Qed.

Lemma run_rolling_coherent (es : list Event) :
  forall w w', Forall (fun e => rolling e = true) es -> run w es = Some w' ->
    coherent F D w -> coherent F D w'.
Proof.
  induction es as [|e es IH]; intros w w' Hes Hrun Hco.
  - now injection Hrun as <-.
  - cbn [run] in Hrun. destruct (step w e) as [w1|] eqn:Hstep; [|discriminate].
    apply Forall_cons in Hes as [He Hes].
    apply step_in_game in Hstep; [|now apply rolling_in_game].
    eapply IH; [exact Hes|exact Hrun|].
    eapply handle_rolling_coherent; eassumption.
Qed.

End Coherence.

(** C1. Take a roll that starts in [w].  Whatever happens before its
    timeout fires, every animation step of the roll and its completion
    store dice that agree with the dice of [w] on the dice frozen in [w]:
    same ids at the same positions, and a frozen die is the die it was, so
    it shows the value it had before the roll.  And from a state with no
    roll pending, along any sequence of rolls (clicks on the button,
    animation steps, completions, in any number and order), the frozen
    set stays the same and in every state on the way each frozen die is,
    at its position, the die it was. *)
Theorem frozen_dice_keep_value (w : World) :
  (forall es w2 e w3,
      JS.ge (rolls (state w)) (maxRolls (state w)) = false ->
      TimeoutFires (next_timer w) ∉ es ->
      run w (ClickRoll :: es) = Some w2 ->
      e = IntervalFires (next_timer w) \/ e = TimeoutFires (next_timer w) ->
      step w2 e = Some w3 ->
      agree (frozenIds (state w)) (dice (state w)) (dice (state w3))
      /\ forall j, j ∈ frozenIds (state w) ->
                   value_of j (dice (state w3)) = value_of j (dice (state w)))
  /\ (forall es w',
        timers w = ∅ ->
        Forall (fun e => rolling e = true) es ->
        run w es = Some w' ->
        frozenIds (state w') = frozenIds (state w)
        /\ (forall i d, dice (state w) !! i = Some d ->
                        id d ∈ frozenIds (state w) ->
                        dice (state w') !! i = Some d)
        /\ (forall j, j ∈ frozenIds (state w) ->
                      value_of j (dice (state w')) = value_of j (dice (state w)))
        /\ map id (dice (state w')) = map id (dice (state w))).
Proof.
  split.
  - intros es w2 e w3 Hge Hnot Hrun He Hstep. cbn [run] in Hrun.
    destruct (step w ClickRoll) as [w1|] eqn:Hstep1; [|discriminate].
    pose proof (rollDice_pending w w1 Hge Hstep1) as Hp.
    pose proof (run_pending _ _ _ es w1 w2 Hrun Hnot Hp) as Hp2.
    assert (Ha : agree (frozenIds (state w)) (dice (state w)) (dice (state w3))).
    { destruct He as [-> | ->].
      - eapply interval_pending; eassumption.
      - destruct (timeout_pending _ _ _ w2 Hp2) as (w3' & Hs3 & Hd & _).
        rewrite Hs3 in Hstep. injection Hstep as <-. rewrite Hd.
        apply rerolled_agree, reroll_rerolled. }
    split; [exact Ha|]. intros j Hj. eapply agree_value_of; eassumption.
  - intros es w' Hq Hes Hrun.
    assert (Hco : coherent (frozenIds (state w)) (dice (state w)) w).
    { split; [reflexivity|]. split; [apply agree_refl|].
      intros t roll Hl. rewrite Hq in Hl. discriminate Hl. }
    pose proof (run_rolling_coherent _ _ es w w' Hes Hrun Hco) as (HF & HD & _).
    split; [exact HF|]. split; [|split].
    + intros i d Hd Hin. eapply agree_lookup; eassumption.
    + intros j Hj. eapply agree_value_of; eassumption.
    + eapply agree_ids; eassumption.
Qed.

Lemma frozen_dice_keep_value_witness :
  match run (mount sample_rng) [ClickRoll; TimeoutFires 0; ClickDie 1; ClickDie 3] with
  | Some w =>
      match run w [ClickRoll; IntervalFires 1; IntervalFires 1; TimeoutFires 1;
                   ClickRoll; IntervalFires 2; TimeoutFires 2] with
      | Some w' =>
          value_of 1 (dice (state w)) = Some 3%nat
          /\ value_of 1 (dice (state w')) = value_of 1 (dice (state w))
      | None => False
      end
  | None => False
  end.
Proof.
  destruct (run (mount sample_rng) _) as [w|] eqn:Hrun;
    [|vm_compute in Hrun; discriminate Hrun].
  vm_compute in Hrun. injection Hrun as <-.
  match goal with
  | |- match run ?w0 ?es with _ => _ end =>
      destruct (run w0 es) as [w'|] eqn:Hrun';
      [|vm_compute in Hrun'; discriminate Hrun']
  end.
  split; [vm_compute; reflexivity|].
  match type of Hrun' with
  | run ?w0 ?es = _ =>
      apply (proj2 (frozen_dice_keep_value w0) es w');
      [vm_compute; reflexivity | repeat constructor | exact Hrun'
      | vm_compute; reflexivity]
  end.
Defined.

(** ** The score on screen *)

Lemma splice_sum (k : nat) (x : Die) (l : list Die) :
  sum_of_faces (take k l ++ x :: drop k l) = sum_of_faces (x :: l).
Proof.
  rewrite sum_of_faces_app. change (x :: drop k l) with ([x] ++ drop k l).
  change (x :: l) with ([x] ++ l). rewrite !sum_of_faces_app.
  rewrite <- (take_drop k l) at 3. rewrite sum_of_faces_app. lia.
Qed.

Lemma splice_delete1_sum (start : Z) (x : Die) (l removed rest : list Die) :
  JS.splice_delete1 start l = (x :: removed, rest) ->
  sum_of_faces (x :: rest) = sum_of_faces l.
Proof.
  unfold JS.splice_delete1. set (k := JS.relative_start start l). intros [= Hx <-].
  destruct (drop k l) as [|y tl] eqn:Hd; [discriminate|].
  cbn in Hx. injection Hx as -> _.
  rewrite <- (take_drop k l) at 3. rewrite Hd.
  change (x :: take k l ++ drop (S k) l) with ([x] ++ take k l ++ drop (S k) l).
  change (x :: tl) with ([x] ++ tl).
  replace (drop (S k) l) with tl
    by (rewrite <- (Nat.add_1_l k), Nat.add_comm, <- drop_drop, Hd; reflexivity).
  rewrite !sum_of_faces_app. lia.
Qed.

(** A drop keeps the sum of the faces and leaves the stored score alone. *)
Lemma handleDrop_sum (r : State) (B : nat) (u : Update) :
  handleDrop r B = Some u ->
  sum_of_faces (dice (u r)) = sum_of_faces (dice r) /\ score (u r) = score r.
Proof.
  unfold handleDrop. destruct (draggedId r) as [A|]; [|now intros [= <-]].
  destruct (A =? B)%nat; [now intros [= <-]|].
  destruct (JS.splice_delete1 _ _) as [[|x removed] rest] eqn:Hdel; [discriminate|].
  intros [= <-]. split; [|reflexivity]. cbn.
  unfold JS.splice_insert. rewrite splice_sum. eapply splice_delete1_sum, Hdel.
Qed.

Lemma applyRand_startNewGame_settled (r : State) (w : World) :
  score_settled (applyRand (startNewGame r) w).
Proof.
  intros _. destruct (applyRand_state (startNewGame r) w) as [-> _].
  apply startNewGame_score.
Qed.

Lemma handle_settled (w w1 : World) (e : Event) :
  score_settled w -> handle e w = Some w1 -> score_settled w1.
Proof.
  intros Hs Hh. destruct e; cbn [handle] in Hh; case_guards Hh;
    try (injection Hh as <-; exact Hs).
  - injection Hh as <-. unfold rollDice. destruct (JS.ge _ _); [exact Hs|].
    intros Ht. cbn in Ht. now apply insert_non_empty in Ht.
  - unfold rollingInterval in Hh. destruct (timers w !! t); [|discriminate].
    destruct (reroll _ _ _). injection Hh as <-.
    intros Ht. cbn in Ht. now apply insert_non_empty in Ht.
  - intros _. eapply rollTimeout_score, Hh.
  - injection Hh as <-. unfold toggleFreeze. destruct (_ || _); exact Hs.
  - injection Hh as <-. unfold handleDragEnter. destruct (bool_decide _); exact Hs.
  - injection Hh as <-. intros Ht. cbn [applyUpdate state timers] in *.
    destruct (handleDrop_sum _ _ _ Hdrop) as [-> ->]. exact (Hs Ht).
  - injection Hh as <-. apply applyRand_startNewGame_settled.
Qed.

Lemma step_settled (w w' : World) (e : Event) :
  score_settled w -> step w e = Some w' -> score_settled w'.
Proof.
  intros Hs H. unfold step in H. destruct (handle e w) as [w1|] eqn:Hh; [|discriminate].
  injection H as <-. unfold useEffect.
  destruct (deps_changed _ _); [apply applyRand_startNewGame_settled|].
  eapply handle_settled; eassumption.
Qed.

Lemma reachable_settled (w : World) : reachable w -> score_settled w.
Proof.
  intros (g & es & Hrun).
  assert (Hmount : score_settled (mount g)) by apply applyRand_startNewGame_settled.
  revert Hrun Hmount. generalize (mount g). clear g.
  induction es as [|e es IH]; intros w0 Hrun Hs.
  - now injection Hrun as <-.
  - cbn [run] in Hrun. destruct (step w0 e) as [w1|] eqn:Hstep; [|discriminate].
    eapply IH; [exact Hrun|]. eapply step_settled; eassumption.
Qed.

(** C7. [calculateScore] stores the sum over the dice it is given of
    (value + 1), whatever the state it is applied to, and touches nothing
    else; for the values 0, 5, 2 the score is 10.  Both callers, a new
    game and the end of a roll, leave the score equal to that sum over the
    dice they store, and in every reachable state with no roll pending the
    stored score is that sum over the dice of the state. *)
Theorem calculateScore_sum :
  (forall ds s, score (calculateScore ds s) = sum_of_faces ds)
  /\ (forall ds s, setScore (score s) (calculateScore ds s) = s)
  /\ (forall s, score (calculateScore [mkDie 0 0; mkDie 1 5; mkDie 2 2] s) = 10%nat)
  /\ (forall r g s,
        score ((startNewGame r g).1 s) = sum_of_faces (dice ((startNewGame r g).1 s)))
  /\ (forall t w w',
        rollTimeout t w = Some w' ->
        score (state w') = sum_of_faces (dice (state w')))
  /\ (forall w, reachable w -> timers w = ∅ ->
                score (state w) = sum_of_faces (dice (state w))).
Proof.
  split; [|split; [|split; [|split; [|split]]]].
  - intros ds s. simpl. apply total_sum.
  - intros ds []. reflexivity.
  - intros s. reflexivity.
  - apply startNewGame_score.
  - apply rollTimeout_score.
  - apply reachable_settled.
Qed.

(** * Further properties *)

(** ** Well-formed dice *)

Lemma initialDice_well_formed (n : nat) (g : Rng) :
  n ∈ numDiceOptions -> well_formed (initialDice n g).1.
Proof.
  intros Hn. pose proof (initialDice_spec n g) as H.
  assert (Hlen : length (initialDice n g).1 = n)
    by (apply Forall2_length in H; now rewrite <- H, length_seq).
  assert (Hids : map id (initialDice n g).1 = seq 0 n).
  { clear -H. induction H as [|i d l l' [Hi _] _ IH]; simpl; congruence. }
  split; [|split].
  - rewrite Hlen. unfold numDiceOptions in Hn.
    repeat (apply elem_of_cons in Hn as [->|Hn]; [lia|]). now apply elem_of_nil in Hn.
  - now rewrite Hids, Hlen.
  - clear -H. induction H as [|i d l l' [_ Hv] _ IH]; constructor; trivial.
Qed.

Lemma rerolled_well_formed (F : gset nat) (ds ds' : list Die) :
  rerolled F ds ds' -> well_formed ds -> well_formed ds'.
Proof.
  intros Hre (Hlen & Hids & Hval).
  pose proof (agree_ids F ds ds' (rerolled_agree F ds ds' Hre)) as Hid.
  pose proof (Forall2_length _ _ _ Hre) as Hl.
  split; [lia|]. split; [rewrite Hid; now rewrite <- Hl|].
  clear -Hre Hval. induction Hre as [|d d' l l' (_ & Hfr & Hnew) _ IH];
    [constructor|].
  apply Forall_cons in Hval as [Hd Hval]. constructor; [|now apply IH].
  destruct (decide (id d ∈ F)) as [Hin|Hout]; [now rewrite (Hfr Hin)|now apply Hnew].
Qed.

Lemma reroll_well_formed (F : gset nat) (ds : list Die) (g : Rng) :
  well_formed ds -> well_formed (reroll F ds g).1.
Proof. apply rerolled_well_formed with F, reroll_rerolled. Qed.

Lemma Permutation_well_formed (ds ds' : list Die) :
  ds ≡ₚ ds' -> well_formed ds -> well_formed ds'.
Proof.
  intros Hp (Hlen & Hids & Hval).
  pose proof (Permutation_length Hp) as Hl.
  split; [lia|]. split; [now rewrite <- Hp|now rewrite <- Hp].
Qed.

(** What [splice] removes and what it leaves make up the array. *)
Lemma splice_delete1_Permutation {A} (start : Z) (x : A) (l removed rest : list A) :
  JS.splice_delete1 start l = (x :: removed, rest) ->
  removed = [] /\ l ≡ₚ x :: rest.
Proof.
  unfold JS.splice_delete1. set (k := JS.relative_start start l). intros [= Hx <-].
  destruct (drop k l) as [|y tl] eqn:Hd; [discriminate|].
  cbn in Hx. injection Hx as -> <-. split; [reflexivity|].
  rewrite <- (take_drop k l) at 1. rewrite Hd.
  replace (drop (S k) l) with tl
    by (rewrite <- (Nat.add_1_l k), Nat.add_comm, <- drop_drop, Hd; reflexivity).
  symmetry. apply Permutation_middle.
Qed.

Lemma splice_insert_Permutation {A} (start : Z) (x : A) (l : list A) :
  JS.splice_insert start x l ≡ₚ x :: l.
Proof.
  unfold JS.splice_insert. set (k := JS.relative_start start l).
  rewrite <- (take_drop k l) at 3. symmetry. apply Permutation_middle.
Qed.

(** ** A drop, whatever the ids *)

Lemma handleDrop_permutes (r : State) (B : nat) (u : Update) :
  handleDrop r B = Some u -> dice (u r) ≡ₚ dice r.
Proof.
  unfold handleDrop. destruct (draggedId r) as [A|]; [|now intros [= <-]].
  destruct (A =? B)%nat; [now intros [= <-]|].
  destruct (JS.splice_delete1 _ _) as [[|x removed] rest] eqn:Hdel; [discriminate|].
  intros [= <-]. cbn.
  apply splice_delete1_Permutation in Hdel as [_ Hp].
  now rewrite splice_insert_Permutation, Hp.
Qed.

(** X1. A drop never loses, repeats or alters a die: the new sequence is a
    permutation of the old one, whether or not the two ids are among the
    dice. *)
Theorem handleDrop_Permutation (r : State) (B : nat) (u : Update) :
  handleDrop r B = Some u ->
  dice (u r) ≡ₚ dice r /\ length (dice (u r)) = length (dice r).
Proof.
  intros H. pose proof (handleDrop_permutes r B u H) as Hp.
  split; [exact Hp|]. now rewrite Hp.
Qed.

Lemma handleDrop_Permutation_witness :
  let r := setDraggedId (Some 7%nat)
             (setDice [mkDie 0 3; mkDie 1 4; mkDie 2 5] initialState) in
  exists u, handleDrop r 0 = Some u /\ dice (u r) ≡ₚ dice r.
Proof.
  intros r.
  assert (H : handleDrop r 0
              = Some (fun s => handleDragEnd
                                 (setDice [mkDie 2 5; mkDie 0 3; mkDie 1 4] s)))
    by reflexivity.
  eexists. split; [exact H|]. exact (proj1 (handleDrop_Permutation r 0 _ H)).
Defined.

Lemma splice_delete1_nil {A} (start : Z) : JS.splice_delete1 start (@nil A) = ([], []).
Proof.
  unfold JS.splice_delete1. now rewrite !drop_nil, !take_nil.
Qed.

(** X2. [handleDrop] stores [undefined] in the array exactly when there is
    no die at all while another die than the target is being dragged; a
    drop on a die that is on screen therefore always completes. *)
Theorem handleDrop_undefined_iff (r : State) (B : nat) :
  (handleDrop r B = None <->
   dice r = [] /\ exists A, draggedId r = Some A /\ A <> B)
  /\ (forall w, enabled w (Drop B) = true -> is_Some (step w (Drop B))).
Proof.
  split; [split|].
  - intros Hnone. destruct (dice r) as [|d ds] eqn:Hd.
    + split; [reflexivity|]. unfold handleDrop in Hnone.
      destruct (draggedId r) as [A|]; [|discriminate]. exists A. split; [reflexivity|].
      destruct (Nat.eqb_spec A B); [discriminate|assumption].
    + destruct (handleDrop_completes r B) as [u Hu]; [now rewrite Hd|congruence].
  - intros (Hd & A & HA & Hne). unfold handleDrop. rewrite HA, Hd.
    apply Nat.eqb_neq in Hne. rewrite Hne. now rewrite splice_delete1_nil.
  - intros w Hen. cbn [enabled] in Hen. apply bool_decide_eq_true_1 in Hen.
    unfold step. cbn [handle].
    destruct (handleDrop_completes (state w) B) as [u ->]; [|eauto].
    intros Hnil. rewrite Hnil in Hen. now apply elem_of_nil in Hen.
Qed.

Lemma handleDrop_undefined_iff_witness :
  handleDrop (setDraggedId (Some 1%nat) initialState) 0 = None
  /\ is_Some (step (mount sample_rng) (Drop 2)).
Proof.
  destruct (handleDrop_undefined_iff (setDraggedId (Some 1%nat) initialState) 0)
    as [[_ Hnone] _].
  destruct (handleDrop_undefined_iff initialState 2) as [_ Hsome].
  split.
  - apply Hnone. split; [reflexivity|]. exists 1%nat. split; [reflexivity|discriminate].
  - apply Hsome. vm_compute. reflexivity.
Defined.

(** X3. When the id being dragged is no longer among the dice, [findIndex]
    answers -1 and [splice(-1, 1)] takes the last die: it is the last die
    that moves to the index of the target. *)
Theorem handleDrop_stale_drag (r : State) (A B b : nat) (dB x : Die) (ds : list Die) :
  draggedId r = Some A -> A <> B ->
  A ∉ map id (dice r) ->
  dice r = ds ++ [x] ->
  list_find (fun d => id d = B) (dice r) = Some (b, dB) ->
  handleDrop r B
  = Some (fun s => handleDragEnd (setDice (take b ds ++ x :: drop b ds) s)).
Proof.
  intros HA Hne Hout Hds Hb. unfold handleDrop. rewrite HA.
  apply Nat.eqb_neq in Hne. rewrite Hne. rewrite !findIndex_list_find, Hb.
  assert (Hfind : list_find (fun d => id d = A) (dice r) = None).
  { apply list_find_None, Forall_forall. intros d Hd Heq. apply Hout.
    apply list_elem_of_In, in_map_iff. exists d. split; [exact Heq|].
    now apply list_elem_of_In. }
  rewrite Hfind. apply list_find_Some in Hb as (Hb & _ & _).
  apply lookup_lt_Some in Hb. rewrite Hds in *. rewrite length_app in Hb. cbn in Hb.
  assert (Hdel : JS.splice_delete1 (-1) (ds ++ [x]) = ([x], ds)).
  { assert (Hk : JS.relative_start (-1) (ds ++ [x]) = length ds).
    { unfold JS.relative_start. rewrite length_app. cbn. lia. }
    unfold JS.splice_delete1. rewrite Hk.
    rewrite drop_app_length, take_app_length.
    rewrite drop_app_ge by lia.
    replace (S (length ds) - length ds)%nat with 1%nat by lia.
    cbn. now rewrite app_nil_r. }
  rewrite Hdel. unfold JS.splice_insert.
  rewrite relative_start_in_range by lia. reflexivity.
Qed.

Lemma handleDrop_stale_drag_witness :
  let r := setDraggedId (Some 7%nat)
             (setDice [mkDie 0 3; mkDie 1 4; mkDie 2 5] initialState) in
  (fun u => map id (dice (u r))) <$> handleDrop r 0 = Some [2; 0; 1]%nat.
Proof.
  intros r.
  rewrite (handleDrop_stale_drag r 7 0 0 (mkDie 0 3) (mkDie 2 5) [mkDie 0 3; mkDie 1 4]);
    [reflexivity | reflexivity | discriminate | | reflexivity | reflexivity].
  cbn. rewrite !not_elem_of_cons. repeat split; try discriminate. apply not_elem_of_nil.
Defined.

(** ** The dice of every reachable world *)

Lemma startNewGame_theme (r : State) (g : Rng) (s : State) :
  theme ((startNewGame r g).1 s) = theme s.
Proof. unfold startNewGame, bind, ret. now destruct (initialDice (numDice r) g). Qed.

Lemma applyRand_startNewGame_well_formed (w : World) :
  numDice (state w) ∈ numDiceOptions -> theme (state w) ∈ themes ->
  (forall t roll, timers w !! t = Some roll ->
     well_formed (roll_dice roll) /\ well_formed (tempDice roll)
     /\ (t < next_timer w)%nat) ->
  world_well_formed (applyRand (startNewGame (state w)) w).
Proof.
  intros Hn Hth Ht.
  destruct (applyRand_state (startNewGame (state w)) w) as (Hs & Htm & Hnt).
  pose proof (startNewGame_fields (state w) (rng w) (state w))
    as (_ & _ & _ & _ & HN & _).
  unfold world_well_formed. rewrite Hs, Htm, Hnt, HN.
  rewrite startNewGame_dice, startNewGame_theme.
  split; [now apply initialDice_well_formed|]. auto.
Qed.

Lemma handle_well_formed (w w1 : World) (e : Event) :
  world_well_formed w -> handle e w = Some w1 -> world_well_formed w1.
Proof.
  intros (Hd & Hn & Hth & Ht) Hh.
  assert (Hw : world_well_formed w) by exact (conj Hd (conj Hn (conj Hth Ht))).
  destruct e; cbn [handle] in Hh.
  - injection Hh as <-. unfold rollDice. destruct (JS.ge _ _); [exact Hw|].
    split; [exact Hd|]. split; [exact Hn|]. split; [exact Hth|].
    cbn [timers next_timer]. intros t roll Hl.
    apply lookup_insert_Some in Hl as [[<- <-]|[_ Hl]].
    + cbn. auto.
    + destruct (Ht t roll Hl) as (H1 & H2 & H3). auto.
  - unfold rollingInterval in Hh.
    destruct (timers w !! t) as [roll|] eqn:Hl; [|discriminate].
    destruct (Ht t roll Hl) as (H1 & H2 & H3).
    pose proof (reroll_well_formed (roll_frozenIds roll) (tempDice roll) (rng w) H2)
      as Hre.
    destruct (reroll _ _ _) as [temp g]. injection Hh as <-. cbn [fst] in Hre.
    split; [exact Hre|]. split; [exact Hn|]. split; [exact Hth|].
    cbn [timers next_timer]. intros t' roll' Hl'.
    apply lookup_insert_Some in Hl' as [[<- <-]|[_ Hl']]; [cbn; auto|now apply Ht].
  - unfold rollTimeout in Hh.
    destruct (timers w !! t) as [roll|] eqn:Hl; [|discriminate].
    destruct (Ht t roll Hl) as (H1 & H2 & H3).
    pose proof (reroll_well_formed (roll_frozenIds roll) (roll_dice roll) (rng w) H1)
      as Hre.
    destruct (reroll _ _ _) as [finalDice g]. injection Hh as <-. cbn [fst] in Hre.
    split; [exact Hre|]. split; [exact Hn|]. split; [exact Hth|].
    cbn [timers next_timer]. intros t' roll' Hl'.
    apply lookup_delete_Some in Hl' as [_ Hl']. now apply Ht.
  - injection Hh as <-. unfold toggleFreeze. destruct (_ || _); exact Hw.
  - injection Hh as <-. exact Hw.
  - injection Hh as <-. unfold handleDragEnter. destruct (bool_decide _); exact Hw.
  - injection Hh as <-. exact Hw.
  - destruct (handleDrop (state w) targetId) as [u|] eqn:Hdrop; [|discriminate].
    injection Hh as <-.
    pose proof (handleDrop_permutes _ _ _ Hdrop) as Hp.
    pose proof (handle_in_game w (applyUpdate u w) (Drop targetId) eq_refl) as Hfr.
    cbn [handle] in Hfr. rewrite Hdrop in Hfr.
    destruct (Hfr eq_refl) as (HN & _).
    assert (Hthu : theme (u (state w)) = theme (state w)).
    { clear -Hdrop. unfold handleDrop in Hdrop.
      destruct (draggedId (state w)) as [A|]; [|now injection Hdrop as <-].
      destruct (A =? targetId)%nat; [now injection Hdrop as <-|].
      destruct (JS.splice_delete1 _ _) as [[|x ?] ?]; [discriminate|].
      now injection Hdrop as <-. }
    unfold world_well_formed. cbn [applyUpdate state timers next_timer] in *.
    rewrite HN, Hthu. split; [|auto].
    eapply Permutation_well_formed; [symmetry; exact Hp|exact Hd].
  - injection Hh as <-. now apply applyRand_startNewGame_well_formed.
  - destruct (bool_decide_reflect (n ∈ numDiceOptions)) as [Hin|]; [|discriminate].
    injection Hh as <-. exact (conj Hd (conj Hin (conj Hth Ht))).
  - injection Hh as <-. exact Hw.
  - destruct (bool_decide _); [|discriminate]. injection Hh as <-. exact Hw.
  - injection Hh as <-. exact Hw.
  - destruct (bool_decide_reflect (v ∈ themes)) as [Hin|]; [|discriminate].
    injection Hh as <-. exact (conj Hd (conj Hn (conj Hin Ht))).
  - injection Hh as <-. exact Hw.
Qed.

Lemma step_well_formed (w w' : World) (e : Event) :
  world_well_formed w -> step w e = Some w' -> world_well_formed w'.
Proof.
  intros Hw H. unfold step in H. destruct (handle e w) as [w1|] eqn:Hh; [|discriminate].
  injection H as <-. pose proof (handle_well_formed w w1 e Hw Hh) as Hw1.
  unfold useEffect. destruct (deps_changed _ _); [|exact Hw1].
  destruct Hw1 as (_ & Hn & Hth & Ht). now apply applyRand_startNewGame_well_formed.
Qed.

Lemma mount_well_formed (g : Rng) : world_well_formed (mount g).
Proof.
  unfold mount.
  apply (applyRand_startNewGame_well_formed (mkWorld initialState ∅ 0 g)).
  - cbn. unfold numDiceOptions. rewrite !elem_of_cons. auto 10.
  - cbn. constructor.
  - intros t roll Hl. cbn in Hl. discriminate Hl.
Qed.

Lemma reachable_world_well_formed (w : World) : reachable w -> world_well_formed w.
Proof.
  revert w. apply reachable_inv; [apply mount_well_formed|].
  intros w e w' _. apply step_well_formed.
Qed.

(** X4. In every reachable world the dice on screen, and the dice of every
    pending roll, are between one and six dice whose ids are 0 .. n-1 in
    some order and whose face indices are in 0..5. *)
Theorem reachable_well_formed (w : World) :
  reachable w ->
  well_formed (dice (state w))
  /\ forall t roll, timers w !! t = Some roll ->
       well_formed (roll_dice roll) /\ well_formed (tempDice roll).
Proof.
  intros Hr. destruct (reachable_world_well_formed w Hr) as (Hd & _ & _ & Ht).
  split; [exact Hd|].
  intros t roll Hl. destruct (Ht t roll Hl) as (H1 & H2 & _). auto.
Qed.

Lemma reachable_well_formed_witness :
  match run (mount sample_rng)
          [SelectNumDice 3; ClickRoll; IntervalFires 0; DragStart 2; Drop 0] with
  | Some w => well_formed (dice (state w)) /\ map id (dice (state w)) = [2; 0; 1]%nat
  | None => False
  end.
Proof.
  destruct (run (mount sample_rng) _) as [w|] eqn:Hrun;
    [|vm_compute in Hrun; discriminate Hrun].
  split.
  - apply reachable_well_formed. exists sample_rng. eexists. exact Hrun.
  - vm_compute in Hrun. injection Hrun as <-. reflexivity.
Defined.

(** X5. The render never lacks a glyph and never repeats a key: every die
    of a reachable state has a face in [diceFaces], and no two dice have
    the same id. *)
Theorem render_faces_defined (w : World) :
  reachable w ->
  (forall d, d ∈ dice (state w) -> is_Some (face (dieProps (state w) d)))
  /\ NoDup (map id (dice (state w))).
Proof.
  intros Hr.
  destruct (reachable_world_well_formed w Hr) as ((_ & Hids & Hval) & _). split.
  - intros d Hd. rewrite Forall_forall in Hval. specialize (Hval d Hd).
    cbn [dieProps face]. apply lookup_lt_is_Some. exact Hval.
  - rewrite Hids. apply NoDup_seq.
Qed.

Lemma render_faces_defined_witness :
  match run (mount sample_rng) [ClickRoll; IntervalFires 0; TimeoutFires 0] with
  | Some w => NoDup (map id (dice (state w)))
  | None => False
  end.
Proof.
  destruct (run (mount sample_rng) _) as [w|] eqn:Hrun;
    [|vm_compute in Hrun; discriminate Hrun].
  apply render_faces_defined. exists sample_rng. eexists. exact Hrun.
Defined.

(** ** The limit follows the options *)

(** X7. The limit in force always is the one the options call for: in
    every reachable state, whatever was typed as the custom value,
    [maxRolls] is what [startNewGame] would compute from the current
    options.  With the limit disabled it is [Infinity], so the roll button
    is disabled only while a roll is in progress and the label shows the
    counter alone; with the limit enabled it is an integer other than 0
    (2 after 2.5 was typed, 1 after 1e21) and the label shows the counter
    and the limit. *)
Theorem limit_follows_options (w : World) :
  reachable w ->
  maxRolls (state w) = newMaxRolls (state w)
  /\ (limitEnabled (state w) = false ->
      rollDisabled (state w) = isRolling (state w)
      /\ rollLabel (state w)
         = ("Roll: " ++ JS.ToString (rolls (state w)))%string)
  /\ (limitEnabled (state w) = true ->
      exists z, z <> 0 /\ maxRolls (state w) = JS.Int z
        /\ rollLabel (state w)
           = ("Roll: " ++ JS.ToString (rolls (state w))
              ++ " / " ++ JS.ToString (JS.Int z))%string).
Proof.
  intros Hr. pose proof (reachable_sync w Hr) as Hs.
  pose proof (reachable_limit_ok w Hr) as [Hsel _].
  split; [exact Hs|]. split.
  - intros HL. assert (Hinf : maxRolls (state w) = JS.Infinity)
      by (rewrite Hs; unfold newMaxRolls; now rewrite HL).
    unfold rollDisabled, rollLabel. rewrite Hinf. cbn [JS.ge].
    now rewrite orb_false_r.
  - intros HL.
    assert (Hz : exists z, z <> 0 /\ maxRolls (state w) = JS.Int z).
    { rewrite Hs. unfold maxRollsOptions in Hsel.
      apply elem_of_cons in Hsel as [H3|Hsel].
      - exists 3. unfold newMaxRolls. rewrite HL, H3. split; [lia|reflexivity].
      - apply list_elem_of_singleton in Hsel.
        rewrite (newMaxRolls_custom (state w) HL Hsel).
        apply custom_limit_integer. }
    destruct Hz as (z & Hz & Hm). exists z. split; [exact Hz|]. split; [exact Hm|].
    unfold rollLabel. now rewrite Hm.
Qed.

Lemma limit_follows_options_witness :
  match run (mount sample_rng) [ToggleOptions; ToggleLimit; ClickRoll] with
  | Some w => rollLabel (state w) = "Roll: 1 / 3"%string
  | None => False
  end
  /\ match run (mount sample_rng)
             [ToggleOptions; ToggleLimit; SelectMaxRolls "other";
              InputCustomMaxRolls (JS.Int (10 ^ 21))] with
     | Some w => rollLabel (state w) = "Roll: 0 / 1"%string
     | None => False
     end
  /\ match run (mount sample_rng)
             [ToggleOptions; ToggleLimit; SelectMaxRolls "other";
              InputCustomMaxRolls (JS.Frac false 2 JS.D5 1)] with
     | Some w => rollLabel (state w) = "Roll: 0 / 2"%string
     | None => False
     end.
Proof.
  split; [|split].
  - destruct (run (mount sample_rng) _) as [w|] eqn:Hrun;
      [|vm_compute in Hrun; discriminate Hrun].
    assert (Hr : reachable w) by (exists sample_rng; eexists; exact Hrun).
    assert (Hw : limitEnabled (state w) = true /\ maxRolls (state w) = JS.Int 3
                 /\ rolls (state w) = JS.Int 1)
      by (vm_compute in Hrun; injection Hrun as <-; repeat split).
    destruct Hw as (HL & HM & HR).
    destruct (limit_follows_options w Hr) as (_ & _ & Hon).
    destruct (Hon HL) as (z & _ & Hz & ->). rewrite HM in Hz. injection Hz as <-.
    rewrite HR. reflexivity.
  - destruct (run (mount sample_rng) _) as [w|] eqn:Hrun;
      [|vm_compute in Hrun; discriminate Hrun].
    assert (Hr : reachable w) by (exists sample_rng; eexists; exact Hrun).
    assert (Hw : limitEnabled (state w) = true /\ maxRolls (state w) = JS.Int 1
                 /\ rolls (state w) = JS.Int 0)
      by (vm_compute in Hrun; injection Hrun as <-; repeat split).
    destruct Hw as (HL & HM & HR).
    destruct (limit_follows_options w Hr) as (_ & _ & Hon).
    destruct (Hon HL) as (z & _ & Hz & ->). rewrite HM in Hz. injection Hz as <-.
    rewrite HR. reflexivity.
  - destruct (run (mount sample_rng) _) as [w|] eqn:Hrun;
      [|vm_compute in Hrun; discriminate Hrun].
    assert (Hr : reachable w) by (exists sample_rng; eexists; exact Hrun).
    assert (Hw : limitEnabled (state w) = true /\ maxRolls (state w) = JS.Int 2
                 /\ rolls (state w) = JS.Int 0)
      by (vm_compute in Hrun; injection Hrun as <-; repeat split).
    destruct Hw as (HL & HM & HR).
    destruct (limit_follows_options w Hr) as (_ & _ & Hon).
    destruct (Hon HL) as (z & _ & Hz & ->). rewrite HM in Hz. injection Hz as <-.
    rewrite HR. reflexivity.
Defined.

(** ** The rolling flag and the timers *)

Lemma step_rolling_flag (w w' : World) (e : Event) :
  (isRolling (state w) = true -> timers w <> ∅) ->
  step w e = Some w' ->
  isRolling (state w') = true -> timers w' <> ∅.
Proof.
  intros Hinv H. unfold step in H. destruct (handle e w) as [w1|] eqn:Hh; [|discriminate].
  injection H as <-. unfold useEffect. destruct (deps_changed _ _).
  - destruct (applyRand_state (startNewGame (state w1)) w1) as (-> & _ & _).
    destruct (startNewGame_fields (state w1) (rng w1) (state w1)) as (_ & _ & -> & _).
    discriminate.
  - destruct e; cbn [handle] in Hh; case_guards Hh;
      try (injection Hh as <-; exact Hinv).
    + injection Hh as <-. unfold rollDice. destruct (JS.ge _ _); [exact Hinv|].
      intros _. cbn. apply insert_non_empty.
    + unfold rollingInterval in Hh. destruct (timers w !! t); [|discriminate].
      destruct (reroll _ _ _). injection Hh as <-. intros _. cbn. apply insert_non_empty.
    + unfold rollTimeout in Hh. destruct (timers w !! t); [|discriminate].
      destruct (reroll _ _ _). injection Hh as <-. discriminate.
    + injection Hh as <-. unfold toggleFreeze. destruct (_ || _); exact Hinv.
    + injection Hh as <-. unfold handleDragEnter. destruct (bool_decide _); exact Hinv.
    + injection Hh as <-. cbn [applyUpdate state timers].
      match type of Hdrop with
      | handleDrop _ _ = Some ?u =>
          assert (Hu : isRolling (u (state w)) = isRolling (state w))
      end.
      { clear -Hdrop. unfold handleDrop in Hdrop.
        destruct (draggedId (state w)) as [A|]; [|now injection Hdrop as <-].
        destruct (A =? targetId)%nat; [now injection Hdrop as <-|].
        destruct (JS.splice_delete1 _ _) as [[|x ?] ?]; [discriminate|].
        now injection Hdrop as <-. }
      rewrite Hu. exact Hinv.
    + injection Hh as <-.
      destruct (applyRand_state (startNewGame (state w)) w) as (-> & _ & _).
      destruct (startNewGame_fields (state w) (rng w) (state w)) as (_ & _ & -> & _).
      discriminate.
Qed.

(** X8. The rolling flag never stays up on its own: in every reachable
    world in which [isRolling] is set a roll is pending, and the timeout
    of any pending roll fires and clears the flag. *)
Theorem rolling_ends (w : World) :
  reachable w ->
  (isRolling (state w) = true -> exists t, is_Some (timers w !! t))
  /\ (forall t, is_Some (timers w !! t) ->
        exists w', step w (TimeoutFires t) = Some w'
                   /\ isRolling (state w') = false
                   /\ timers w' = delete t (timers w)).
Proof.
  intros Hr. split.
  - intros Hroll.
    assert (Hne : timers w <> ∅).
    { revert w Hr Hroll. apply (reachable_inv (fun w =>
        isRolling (state w) = true -> timers w <> ∅)).
      - intros g. unfold mount.
        destruct (applyRand_state (startNewGame initialState)
                    (mkWorld initialState ∅ 0 g)) as (-> & _ & _).
        cbn [rng state].
        destruct (startNewGame_fields initialState g initialState) as (_ & _ & -> & _).
        discriminate.
      - intros w e w' _. apply step_rolling_flag. }
    destruct (map_choose _ Hne) as (t & roll & Hl). exists t. now rewrite Hl.
  - intros t [roll Hl]. unfold step. cbn [handle]. unfold rollTimeout. rewrite Hl.
    destruct (reroll _ _ _) as [finalDice g]. eexists.
    rewrite useEffect_unchanged by reflexivity. repeat split.
Qed.

Lemma rolling_ends_witness :
  match run (mount sample_rng) [ClickRoll; IntervalFires 0] with
  | Some w => isRolling (state w) = true /\ exists t, is_Some (timers w !! t)
  | None => False
  end.
Proof.
  destruct (run (mount sample_rng) _) as [w|] eqn:Hrun;
    [|vm_compute in Hrun; discriminate Hrun].
  assert (Hr : reachable w) by (exists sample_rng; eexists; exact Hrun).
  assert (Hroll : isRolling (state w) = true)
    by (vm_compute in Hrun; injection Hrun as <-; reflexivity).
  split; [exact Hroll|]. now apply (rolling_ends w Hr).
Defined.

(** ** A new game during a roll *)

(** X9. [startNewGame] cancels no timer.  When a new game is started while
    a roll is pending (by the button or by a changed option), the roll
    stays pending, and its timeout then puts the dice of the old game back
    on screen, rerolled: their ids and their number, with the counter and
    the frozen set of the new game. *)
Theorem new_game_keeps_roll (w w1 : World) (e : Event) (t : nat) (D : list Die)
    (F : gset nat) :
  pending t D F w ->
  in_game e = false ->
  step w e = Some w1 ->
  currentRoll (state w1) = 0%nat ->
  pending t D F w1
  /\ exists w2,
       step w1 (TimeoutFires t) = Some w2
       /\ map id (dice (state w2)) = map id D
       /\ currentRoll (state w2) = 0%nat
       /\ frozenIds (state w2) = frozenIds (state w1)
       /\ numDice (state w2) = numDice (state w1).
Proof.
  intros Hp He Hstep Hc.
  assert (Hp1 : pending t D F w1).
  { eapply step_pending; [exact Hstep| |exact Hp]. intros ->. discriminate He. }
  split; [exact Hp1|].
  destruct (timeout_pending t D F w1 Hp1) as (w2 & Hs2 & Hd & _).
  exists w2. split; [exact Hs2|].
  apply step_in_game in Hs2; [|reflexivity].
  destruct (handle_in_game w1 w2 (TimeoutFires t) eq_refl Hs2)
    as (HN & _ & _ & _ & _ & HC).
  split.
  - rewrite Hd. apply agree_ids with F, rerolled_agree, reroll_rerolled.
  - split; [rewrite HC by discriminate; exact Hc|]. split; [|exact HN].
    cbn [handle] in Hs2. unfold rollTimeout in Hs2.
    destruct (timers w1 !! t); [|discriminate]. destruct (reroll _ _ _).
    now injection Hs2 as <-.
Qed.

Lemma new_game_keeps_roll_witness :
  match run (mount sample_rng) [ClickRoll; SelectNumDice 2; TimeoutFires 0] with
  | Some w => numDice (state w) = 2%nat /\ map id (dice (state w)) = [0; 1; 2; 3; 4]%nat
  | None => False
  end.
Proof.
  destruct (step (mount sample_rng) ClickRoll) as [w0|] eqn:Hroll;
    [|vm_compute in Hroll; discriminate Hroll].
  assert (Hge : JS.ge (rolls (state (mount sample_rng)))
                      (maxRolls (state (mount sample_rng))) = false)
    by (vm_compute; reflexivity).
  pose proof (rollDice_pending _ _ Hge Hroll) as Hp.
  assert (Hnt : next_timer (mount sample_rng) = 0%nat) by (vm_compute; reflexivity).
  assert (Hids : map id (dice (state (mount sample_rng))) = [0; 1; 2; 3; 4]%nat)
    by (vm_compute; reflexivity).
  rewrite Hnt in Hp. cbn [run]. rewrite Hroll.
  destruct (step w0 (SelectNumDice 2)) as [w1|] eqn:Hsel;
    [|vm_compute in Hroll; injection Hroll as <-; vm_compute in Hsel; discriminate Hsel].
  assert (Hc : currentRoll (state w1) = 0%nat /\ numDice (state w1) = 2%nat).
  { vm_compute in Hroll. injection Hroll as <-. vm_compute in Hsel.
    injection Hsel as <-. split; reflexivity. }
  destruct Hc as [Hc Hn].
  destruct (new_game_keeps_roll w0 w1 (SelectNumDice 2) 0 _ _ Hp eq_refl Hsel Hc)
    as (_ & w2 & Hs2 & Hd & _ & _ & HN).
  rewrite Hs2. split; [congruence|]. now rewrite Hd.
Defined.

(** ** Options chosen again *)

(** X10. Choosing the value an option already has does nothing at all: the
    state is the same, no new game is started, and the pending timers and
    the generator are untouched.  For the custom limit the value is the
    same when [Object.is] says so: [-0] typed over [0] is a change. *)
Theorem option_unchanged_keeps_game (w : World) (e : Event) (u : Update) :
  option_update (state w) e = Some u ->
  offered e ->
  ~ changes_option (state w) e ->
  step w e = Some w.
Proof.
  intros Hu Hoff Hsame. unfold step.
  assert (Hh : handle e w = Some w).
  { destruct w as [s tm nt g]. destruct s.
    destruct e; try discriminate Hu; cbn [option_update handle offered changes_option
                                            state] in *.
    - rewrite (bool_decide_eq_true_2 _ Hoff).
      destruct (decide (n = numDice0)) as [->|Hne]; [reflexivity|contradiction].
    - contradiction.
    - rewrite (bool_decide_eq_true_2 _ Hoff).
      destruct (decide (v = maxRollsSelection0)) as [->|Hne]; [reflexivity|contradiction].
    - destruct (decide (v = customMaxRolls0)) as [->|Hne]; [reflexivity|contradiction]. }
  rewrite Hh. now rewrite useEffect_unchanged.
Qed.

Lemma option_unchanged_keeps_game_witness :
  step (mount sample_rng) (SelectNumDice 5) = Some (mount sample_rng)
  /\ match run (mount sample_rng)
             [ToggleOptions; ToggleLimit; SelectMaxRolls "other";
              InputCustomMaxRolls (JS.Frac false 2 JS.D5 1); ClickRoll] with
     | Some w => step w (InputCustomMaxRolls (JS.Frac false 2 JS.D5 1)) = Some w
     | None => False
     end.
Proof.
  split.
  - apply (option_unchanged_keeps_game _ _ (setNumDice 5)).
    + reflexivity.
    + cbn. unfold numDiceOptions. rewrite !elem_of_cons. auto 10.
    + intros H. apply H. vm_compute. reflexivity.
  - destruct (run (mount sample_rng) _) as [w|] eqn:Hrun;
      [|vm_compute in Hrun; discriminate Hrun].
    assert (Hv : customMaxRolls (state w) = JS.Frac false 2 JS.D5 1)
      by (vm_compute in Hrun; injection Hrun as <-; reflexivity).
    apply (option_unchanged_keeps_game _ _ (setCustomMaxRolls (JS.Frac false 2 JS.D5 1))).
    + reflexivity.
    + exact I.
    + intros H. apply H. now rewrite Hv.
Defined.

(** ** Freezing twice *)

(** X11. Clicking the same die twice leaves the state as it was: the second
    click undoes the first, and where the first is refused so is the
    second. *)
Theorem toggleFreeze_twice (r s : State) (i : nat) :
  toggleFreeze r i (toggleFreeze r i s) = s.
Proof.
  unfold toggleFreeze. destruct (isRolling r || (currentRoll r =? 0)%nat); [reflexivity|].
  destruct s as [n ds F c m ro dr dov sc th so le se cu]. unfold setFrozenIds. cbn.
  f_equal. destruct (bool_decide_reflect (i ∈ F)) as [Hin|Hout].
  - rewrite bool_decide_eq_false_2
      by (rewrite elem_of_difference, elem_of_singleton; tauto).
    apply set_eq. intros j.
    rewrite elem_of_union, elem_of_difference, elem_of_singleton.
    destruct (decide (j = i)) as [->|]; tauto.
  - rewrite bool_decide_eq_true_2
      by (rewrite elem_of_union, elem_of_singleton; tauto).
    apply set_eq. intros j.
    rewrite elem_of_difference, elem_of_union, elem_of_singleton.
    destruct (decide (j = i)) as [->|]; tauto.
Qed.

(** ** Dragging *)

(** X12. Starting a drag, entering a die and ending a drag change the drag
    state and nothing else: no die, no counter, no score, no timer, no
    new game.  A drag start records its die, entering a die records it
    unless it is the die being dragged, and a drag end clears both
    records, after which every die shows its face. *)
Theorem dragging_only (w : World) (e : Event) :
  dragging e = true ->
  exists w',
    step w e = Some w'
    /\ setDraggedId (draggedId (state w))
         (setDragOverId (dragOverId (state w)) (state w')) = state w
    /\ timers w' = timers w /\ next_timer w' = next_timer w /\ rng w' = rng w
    /\ match e with
       | DragStart i => draggedId (state w') = Some i
       | DragEnter i =>
           dragOverId (state w')
           = if bool_decide (draggedId (state w) = Some i)
             then dragOverId (state w) else Some i
       | _ =>
           draggedId (state w') = None /\ dragOverId (state w') = None
           /\ forall d, shownFace (dieProps (state w') d) = diceFaces !! value d
       end.
Proof.
  intros He. unfold step.
  destruct e; try discriminate He; cbn [handle]; eexists;
    (split; [rewrite useEffect_unchanged;
             [reflexivity|
              try (unfold handleDragEnter; destruct (bool_decide _)); reflexivity ..]|]).
  - destruct w as [[] ? ? ?]. repeat split.
  - destruct w as [[] ? ? ?]. cbn. unfold handleDragEnter. cbn.
    destruct (bool_decide _); repeat split.
  - destruct w as [[] ? ? ?]. repeat split.
Qed.

Lemma dragging_only_witness :
  exists w',
    step (mount sample_rng) (DragStart 2) = Some w'
    /\ draggedId (state w') = Some 2%nat
    /\ timers w' = timers (mount sample_rng).
Proof.
  destruct (dragging_only (mount sample_rng) (DragStart 2) eq_refl)
    as (w' & Hstep & _ & Ht & _ & _ & Hd).
  exists w'. auto.
Defined.

(** ** What a roll draws *)

Lemma initialDice_from (n : nat) :
  forall start g,
    mapM (fun i => (v <- random_face ;; ret (mkDie i v))%rand) (seq start n) g
    = (map (fun k => mkDie (start + k) ((samples g (calls g + k)) mod 6)%nat) (seq 0 n),
       mkRng (samples g) (calls g + n)).
Proof.
  induction n as [|n IH]; intros start g.
  - cbn. unfold ret. destruct g. cbn. now rewrite Nat.add_0_r.
  - cbn [seq mapM]. unfold bind at 1. unfold bind at 1. cbn [random_face].
    unfold ret at 1. unfold bind at 1. rewrite IH. unfold ret. cbn [samples calls map].
    rewrite !Nat.add_0_r. f_equal; [|f_equal; lia]. f_equal.
    rewrite <- seq_shift, map_map. apply map_ext. intros k.
    f_equal; [lia|]. f_equal. f_equal. lia.
Qed.

Lemma reroll_cons (F : gset nat) (d : Die) (ds : list Die) (g : Rng) :
  reroll F (d :: ds) g
  = if bool_decide (id d ∈ F)
    then let '(ys, g') := reroll F ds g in (d :: ys, g')
    else let '(ys, g') := reroll F ds (mkRng (samples g) (S (calls g))) in
         (mkDie (id d) ((samples g (calls g)) mod 6)%nat :: ys, g').
Proof.
  unfold reroll. cbn [mapM]. unfold bind, ret, random_face.
  destruct (bool_decide (id d ∈ F)); reflexivity.
Qed.

Lemma reroll_all_frozen (F : gset nat) (ds : list Die) (g : Rng) :
  Forall (fun d => id d ∈ F) ds -> reroll F ds g = (ds, g).
Proof.
  intros Hall. induction Hall as [|d ds Hd _ IH]; [reflexivity|].
  rewrite reroll_cons, (bool_decide_eq_true_2 _ Hd), IH. reflexivity.
Qed.

(** X13. A new game draws exactly [numDice] samples, one per die in the
    order of the ids: die [i] gets the [i]-th of them.  A reroll draws one
    sample per die that is not frozen and none for a frozen die; with
    every die frozen it returns the very same dice and leaves the
    generator as it was. *)
Theorem random_draws (g : Rng) :
  (forall n,
      initialDice n g
      = (map (fun i => mkDie i ((samples g (calls g + i)) mod 6)%nat) (seq 0 n),
         mkRng (samples g) (calls g + n)))
  /\ (forall F ds,
        samples (reroll F ds g).2 = samples g
        /\ calls (reroll F ds g).2
           = (calls g + length (filter (fun d => id d ∉ F) ds))%nat)
  /\ (forall F ds, Forall (fun d => id d ∈ F) ds -> reroll F ds g = (ds, g)).
Proof.
  split; [|split].
  - intros n. unfold initialDice. now rewrite initialDice_from.
  - intros F ds. revert g. induction ds as [|d ds IH]; intros g.
    + cbn. split; [reflexivity|lia].
    + rewrite reroll_cons. destruct (bool_decide_reflect (id d ∈ F)) as [Hin|Hout].
      * specialize (IH g). destruct (reroll F ds g) as [ys g']. cbn [snd] in *.
        rewrite filter_cons_False by tauto. exact IH.
      * specialize (IH (mkRng (samples g) (S (calls g)))).
        destruct (reroll F ds _) as [ys g']. cbn [snd samples calls] in *.
        rewrite filter_cons_True by exact Hout.
        destruct IH as [-> ->]. split; [reflexivity|cbn [length]; lia].
  - intros F ds. apply reroll_all_frozen.
Qed.

Lemma random_draws_witness :
  reroll {[0%nat; 1%nat]} [mkDie 0 3; mkDie 1 4] sample_rng
  = ([mkDie 0 3; mkDie 1 4], sample_rng).
Proof.
  apply (random_draws sample_rng). repeat constructor; cbn;
    rewrite elem_of_union, !elem_of_singleton; auto.
Defined.

(** X14. A roll in which every die is frozen changes no die and draws
    nothing: its animation steps and its completion store the dice the
    roll started with, and the generator is left where it was. *)
Theorem all_frozen_roll (w w' : World) (e : Event) (t : nat) (D : list Die)
    (F : gset nat) :
  pending t D F w ->
  Forall (fun d => id d ∈ F) D ->
  e = IntervalFires t \/ e = TimeoutFires t ->
  step w e = Some w' ->
  dice (state w') = D /\ rng w' = rng w.
Proof.
  intros Hp Hall He Hstep.
  assert (Hsame : forall ds, agree F D ds -> ds = D).
  { intros ds Ha. clear -Ha Hall. induction Ha as [|d d' l l' [_ Hfr] _ IH];
      [reflexivity|].
    apply Forall_cons in Hall as [Hd Hall]. now rewrite (Hfr Hd), IH. }
  destruct Hp as (roll & Hl & HD & HF & HT & _).
  apply step_in_game in Hstep; [|now destruct He as [-> | ->]].
  destruct He as [-> | ->]; cbn [handle] in Hstep.
  - unfold rollingInterval in Hstep. rewrite Hl, HF, (Hsame _ HT) in Hstep.
    rewrite (reroll_all_frozen F D (rng w) Hall) in Hstep.
    now injection Hstep as <-.
  - unfold rollTimeout in Hstep. rewrite Hl, HF, HD in Hstep.
    rewrite (reroll_all_frozen F D (rng w) Hall) in Hstep.
    now injection Hstep as <-.
Qed.

Lemma all_frozen_roll_witness :
  let w := mkWorld (setFrozenIds (fun _ => {[0%nat]})
                      (setDice [mkDie 0 4] initialState))
                   {[0%nat := mkRoll [mkDie 0 4] {[0%nat]} [mkDie 0 4]]} 1 sample_rng in
  match step w (TimeoutFires 0) with
  | Some w' => dice (state w') = [mkDie 0 4] /\ rng w' = sample_rng
  | None => False
  end.
Proof.
  intros w. destruct (step w (TimeoutFires 0)) as [w'|] eqn:Hstep;
    [|vm_compute in Hstep; discriminate Hstep].
  apply (all_frozen_roll w w' (TimeoutFires 0) 0 [mkDie 0 4] {[0%nat]}).
  - exists (mkRoll [mkDie 0 4] {[0%nat]} [mkDie 0 4]).
    split; [reflexivity|]. split; [reflexivity|]. split; [reflexivity|].
    split; [apply agree_refl|cbn; lia].
  - repeat constructor.
  - now right.
  - exact Hstep.
Defined.

(** ** The range of the score *)

Lemma sum_of_faces_bounds (ds : list Die) :
  Forall (fun d => (value d < 6)%nat) ds ->
  (length ds <= sum_of_faces ds <= 6 * length ds)%nat.
Proof.
  induction 1 as [|d ds Hd _ IH]; [cbn; lia|].
  unfold sum_of_faces in *. cbn [sum_list_with length]. lia.
Qed.

Lemma well_formed_sum (ds : list Die) :
  well_formed ds -> (1 <= sum_of_faces ds <= 36)%nat.
Proof.
  intros (Hlen & _ & Hval). pose proof (sum_of_faces_bounds ds Hval). lia.
Qed.

Lemma step_score_range (w w' : World) (e : Event) :
  world_well_formed w ->
  (1 <= score (state w) <= 36)%nat ->
  step w e = Some w' ->
  (1 <= score (state w') <= 36)%nat.
Proof.
  intros Hw Hs H. pose proof (step_well_formed w w' e Hw H) as Hw'.
  unfold step in H. destruct (handle e w) as [w1|] eqn:Hh; [|discriminate].
  injection H as <-.
  assert (Hnew : forall w0, world_well_formed (applyRand (startNewGame (state w0)) w0) ->
            (1 <= score (state (applyRand (startNewGame (state w0)) w0)) <= 36)%nat).
  { intros w0 (Hd & _). revert Hd.
    destruct (applyRand_state (startNewGame (state w0)) w0) as (-> & _ & _).
    rewrite startNewGame_score. apply well_formed_sum. }
  unfold useEffect in *. destruct (deps_changed _ _); [now apply Hnew|].
  destruct e; cbn [handle] in Hh; case_guards Hh;
    try (injection Hh as <-; exact Hs).
  - injection Hh as <-. unfold rollDice. destruct (JS.ge _ _); exact Hs.
  - unfold rollingInterval in Hh. destruct (timers w !! t); [|discriminate].
    destruct (reroll _ _ _). injection Hh as <-. exact Hs.
  - rewrite (rollTimeout_score _ _ _ Hh). apply well_formed_sum, Hw'.
  - injection Hh as <-. unfold toggleFreeze. destruct (_ || _); exact Hs.
  - injection Hh as <-. unfold handleDragEnter. destruct (bool_decide _); exact Hs.
  - injection Hh as <-. cbn [applyUpdate state].
    now rewrite (proj2 (handleDrop_sum _ _ _ Hdrop)).
  - injection Hh as <-. now apply Hnew.
Qed.

(** X15. The score is always between 1 and 36; and whenever no roll is
    pending it lies between the number of dice and six times that
    number. *)
Theorem score_range (w : World) :
  reachable w ->
  (1 <= score (state w) <= 36)%nat
  /\ (timers w = ∅ ->
      (length (dice (state w)) <= score (state w)
       <= 6 * length (dice (state w)))%nat).
Proof.
  intros Hr. split.
  - revert w Hr. apply reachable_inv.
    + intros g. pose proof (mount_well_formed g) as (Hd & _). revert Hd. unfold mount.
      destruct (applyRand_state (startNewGame initialState)
                  (mkWorld initialState ∅ 0 g)) as (-> & _ & _).
      rewrite startNewGame_score. apply well_formed_sum.
    + intros w e w' Hr. apply step_score_range.
      now apply reachable_world_well_formed.
  - intros Hq. rewrite (reachable_settled w Hr Hq).
    apply sum_of_faces_bounds, (reachable_world_well_formed w Hr).
Qed.

Lemma score_range_witness :
  match run (mount sample_rng) [ClickRoll; TimeoutFires 0] with
  | Some w => (5 <= score (state w) <= 30)%nat
  | None => False
  end.
Proof.
  destruct (run (mount sample_rng) _) as [w|] eqn:Hrun;
    [|vm_compute in Hrun; discriminate Hrun].
  assert (Hr : reachable w) by (exists sample_rng; eexists; exact Hrun).
  destruct (score_range w Hr) as [_ Hq].
  assert (Ht : timers w = ∅ /\ length (dice (state w)) = 5%nat)
    by (vm_compute in Hrun; injection Hrun as <-; split; reflexivity).
  destruct Ht as [Ht Hl]. specialize (Hq Ht). rewrite Hl in Hq. exact Hq.
Defined.

(** ** What the dropdowns show *)

Lemma selectedLabel_missing {V} `{EqDecision V}
    (options : list (SelectOption V)) (v : V) :
  v ∉ map opt_value options -> selectedLabel options v = inr v.
Proof.
  intros Hout. unfold selectedLabel.
  destruct (list_find _ options) as [[k opt]|] eqn:Hf; [|reflexivity].
  apply list_find_Some in Hf as (Hk & Hv & _). exfalso. apply Hout.
  apply list_elem_of_In, in_map_iff. exists opt. split; [exact Hv|].
  apply list_elem_of_In. eapply list_elem_of_lookup_2, Hk.
Qed.

Lemma selectedLabel_label {V} `{EqDecision V}
    (options : list (SelectOption V)) (v : V) (l : string) :
  selectedLabel options v = inl l ->
  l <> ""%string /\ exists opt, opt ∈ options /\ opt_value opt = v /\ opt_label opt = l.
Proof.
  unfold selectedLabel.
  destruct (list_find _ options) as [[k opt]|] eqn:Hf; [|discriminate].
  apply list_find_Some in Hf as (Hk & Hv & _).
  destruct (String.eqb_spec (opt_label opt) "") as [|Hne]; [discriminate|].
  intros [= <-]. split; [exact Hne|]. exists opt. split; [|auto].
  eapply list_elem_of_lookup_2, Hk.
Qed.

(** X16. A dropdown shows the label of the first option that has the
    current value, and the raw value when no option has it.  The three
    dropdowns of the game always find their option: in every reachable
    state the dice dropdown shows the number of dice, the limit dropdown
    "3" or "Other..." and the theme dropdown the name of the theme. *)
Theorem dropdowns_show_a_label (w : World) :
  reachable w ->
  selectedLabel numDiceSelect (numDice (state w))
  = inl (JS.ToString (JS.Int (Z.of_nat (numDice (state w)))))
  /\ selectedLabel maxRollsSelect (maxRollsSelection (state w))
     = inl (if String.eqb (maxRollsSelection (state w)) "3" then "3" else "Other...")%string
  /\ selectedLabel themeSelect (theme (state w)) = inl (theme (state w))
  /\ (forall (options : list (SelectOption string)) v,
        v ∉ map opt_value options -> selectedLabel options v = inr v)
  /\ (forall (options : list (SelectOption string)) v l,
        selectedLabel options v = inl l ->
        l <> ""%string
        /\ exists opt, opt ∈ options /\ opt_value opt = v /\ opt_label opt = l).
Proof.
  intros Hr. destruct (reachable_world_well_formed w Hr) as (_ & Hn & Hth & _).
  destruct (reachable_limit_ok w Hr) as [Hsel _].
  split; [|split; [|split; [|split]]].
  - unfold numDiceOptions in Hn.
    repeat (apply elem_of_cons in Hn as [->|Hn]; [reflexivity|]).
    now apply elem_of_nil in Hn.
  - unfold maxRollsOptions in Hsel.
    repeat (apply elem_of_cons in Hsel as [->|Hsel]; [reflexivity|]).
    now apply elem_of_nil in Hsel.
  - unfold themes in Hth.
    repeat (apply elem_of_cons in Hth as [->|Hth]; [reflexivity|]).
    now apply elem_of_nil in Hth.
  - intros options v. apply selectedLabel_missing.
  - intros options v l. apply selectedLabel_label.
Qed.

Lemma dropdowns_show_a_label_witness :
  match run (mount sample_rng) [SelectNumDice 2; ToggleOptions; SelectTheme "Sunset"] with
  | Some w =>
      selectedLabel numDiceSelect (numDice (state w)) = inl "2"%string
      /\ selectedLabel themeSelect (theme (state w)) = inl "Sunset"%string
  | None => False
  end.
Proof.
  destruct (run (mount sample_rng) _) as [w|] eqn:Hrun;
    [|vm_compute in Hrun; discriminate Hrun].
  assert (Hr : reachable w) by (exists sample_rng; eexists; exact Hrun).
  destruct (dropdowns_show_a_label w Hr) as (-> & _ & -> & _ & _).
  vm_compute in Hrun. injection Hrun as <-. split; reflexivity.
Defined.

(** ** Orderly play *)

Lemma run_if_run (ok : World -> Event -> bool) (es : list Event) :
  forall w w', run_if ok w es = Some w' -> run w es = Some w'.
Proof.
  induction es as [|e es IH]; intros w w' H; [exact H|].
  cbn [run_if run] in *. destruct (ok w e); [|discriminate].
  destruct (step w e); [now apply IH|discriminate].
Qed.

Lemma handleDrop_frame (r : State) (B : nat) (u : Update) (s : State) :
  handleDrop r B = Some u ->
  frozenIds (u s) = frozenIds s /\ isRolling (u s) = isRolling s
  /\ numDice (u s) = numDice s.
Proof.
  unfold handleDrop. destruct (draggedId r) as [A|]; [|now intros [= <-]].
  destruct (A =? B)%nat; [now intros [= <-]|].
  destruct (JS.splice_delete1 _ _) as [[|x ?] ?]; [discriminate|].
  now intros [= <-].
Qed.

Lemma new_game_orderly (w : World) :
  timers w = ∅ -> orderly_inv (applyRand (startNewGame (state w)) w).
Proof.
  intros Hq. unfold orderly_inv.
  destruct (applyRand_state (startNewGame (state w)) w) as (-> & -> & _).
  pose proof (startNewGame_fields (state w) (rng w) (state w))
    as (HF & _ & HR & _ & HN & _).
  cbv zeta in *. rewrite HF, HR, HN, startNewGame_dice.
  split; [|split].
  - pose proof (initialDice_spec (numDice (state w)) (rng w)) as H.
    apply Forall2_length in H. now rewrite <- H, length_seq.
  - intros i Hi. now apply not_elem_of_empty in Hi.
  - left. now split.
Qed.

Lemma well_formed_id_lt (ds : list Die) (i : nat) :
  well_formed ds -> i ∈ map id ds -> (i < length ds)%nat.
Proof.
  intros (_ & Hids & _) Hi. rewrite Hids in Hi.
  apply list_elem_of_In, in_seq in Hi. lia.
Qed.

Lemma orderly_step (w w' : World) (e : Event) :
  world_well_formed w -> orderly_inv w ->
  orderly w e = true -> step w e = Some w' -> orderly_inv w'.
Proof.
  intros (Hwf & _) (Hlen & Hfr & Hroll) Hok Hstep.
  unfold orderly in Hok. apply andb_true_iff in Hok as [Hen Hcalm].
  destruct (in_game e) eqn:He.
  - apply step_in_game in Hstep; [|exact He].
    destruct e; try discriminate He; cbn [handle enabled] in *.
    + (* the roll button *)
      injection Hstep as <-. unfold rollDisabled in Hen.
      apply negb_true_iff, orb_false_iff in Hen as [Hnr Hge].
      unfold rollDice. rewrite Hge.
      destruct Hroll as [[_ Hq]|[Hr _]]; [|congruence].
      split; [exact Hlen|]. split; [exact Hfr|]. right. split; [reflexivity|].
      exists (next_timer w), (mkRoll (dice (state w)) (frozenIds (state w))
                                (dice (state w))).
      cbn. rewrite Hq, insert_empty. auto.
    + (* an animation step *)
      unfold rollingInterval in Hstep.
      destruct (timers w !! t) as [roll|] eqn:Hl; [|discriminate].
      destruct Hroll as [[_ Hq]|(Hr & t0 & roll0 & Hq & HlD & HlT & HF)];
        [rewrite Hq in Hl; discriminate Hl|].
      rewrite Hq in Hl. apply lookup_singleton_Some in Hl as [<- <-].
      pose proof (mapM_length
        (fun d => if bool_decide (id d ∈ roll_frozenIds roll0) then ret d
                  else (v <- random_face ;; ret (mkDie (id d) v))%rand)
        (tempDice roll0) (rng w)) as Hml.
      fold (reroll (roll_frozenIds roll0) (tempDice roll0)) in Hml.
      destruct (reroll _ _ _) as [temp g]. injection Hstep as <-. cbn [fst] in Hml.
      unfold orderly_inv. cbn.
      split; [congruence|]. split; [exact Hfr|]. right. split; [exact Hr|].
      eexists t0, _. rewrite Hq, insert_singleton_eq. split; [reflexivity|].
      cbn. repeat split; congruence.
    + (* the end of the roll *)
      unfold rollTimeout in Hstep.
      destruct (timers w !! t) as [roll|] eqn:Hl; [|discriminate].
      destruct Hroll as [[_ Hq]|(Hr & t0 & roll0 & Hq & HlD & HlT & HF)];
        [rewrite Hq in Hl; discriminate Hl|].
      rewrite Hq in Hl. apply lookup_singleton_Some in Hl as [<- <-].
      pose proof (mapM_length
        (fun d => if bool_decide (id d ∈ roll_frozenIds roll0) then ret d
                  else (v <- random_face ;; ret (mkDie (id d) v))%rand)
        (roll_dice roll0) (rng w)) as Hml.
      fold (reroll (roll_frozenIds roll0) (roll_dice roll0)) in Hml.
      destruct (reroll _ _ _) as [finalDice g]. injection Hstep as <-. cbn [fst] in Hml.
      unfold orderly_inv. cbn.
      split; [congruence|]. split; [exact Hfr|]. left. split; [reflexivity|].
      rewrite Hq. apply delete_singleton_eq.
    + (* a click on a die *)
      injection Hstep as <-. apply bool_decide_eq_true_1 in Hen.
      pose proof (well_formed_id_lt _ _ Hwf Hen) as Hi. rewrite Hlen in Hi.
      assert (Hinv : orderly_inv w) by exact (conj Hlen (conj Hfr Hroll)).
      unfold toggleFreeze.
      destruct (isRolling (state w)) eqn:Hr; cbn [orb]; [exact Hinv|].
      destruct (currentRoll (state w) =? 0)%nat; [exact Hinv|].
      destruct Hroll as [[_ Hq]|[Hr' _]]; [|congruence].
      unfold orderly_inv. cbn. rewrite Hr.
      split; [exact Hlen|]. split; [|left; now split].
      intros j. destruct (bool_decide (i ∈ frozenIds (state w)));
        rewrite ?elem_of_difference, ?elem_of_union, ?elem_of_singleton;
        intros Hj.
      * apply Hfr, Hj.
      * destruct Hj as [Hj| ->]; [now apply Hfr|exact Hi].
    + injection Hstep as <-. exact (conj Hlen (conj Hfr Hroll)).
    + injection Hstep as <-. unfold handleDragEnter.
      destruct (bool_decide (draggedId _ = _)); exact (conj Hlen (conj Hfr Hroll)).
    + injection Hstep as <-. exact (conj Hlen (conj Hfr Hroll)).
    + (* a drop *)
      destruct (handleDrop (state w) targetId) as [u|] eqn:Hdrop; [|discriminate].
      injection Hstep as <-.
      destruct (handleDrop_frame _ _ _ (state w) Hdrop) as (HF & HR & HN).
      pose proof (handleDrop_permutes _ _ _ Hdrop) as Hp.
      unfold orderly_inv. cbn [applyUpdate state timers]. rewrite HF, HR, HN, Hp.
      exact (conj Hlen (conj Hfr Hroll)).
    + (* a theme *)
      destruct (bool_decide _); [|discriminate]. injection Hstep as <-.
      exact (conj Hlen (conj Hfr Hroll)).
    + injection Hstep as <-. exact (conj Hlen (conj Hfr Hroll)).
  - (* the controls that can start a new game, used between rolls *)
    cbn [orb] in Hcalm. apply negb_true_iff in Hcalm.
    destruct Hroll as [[_ Hq]|[Hr _]]; [|congruence].
    unfold step in Hstep. destruct (handle e w) as [w1|] eqn:Hh; [|discriminate].
    injection Hstep as <-.
    assert (Hq1 : timers w1 = ∅).
    { destruct e; try discriminate He; cbn [handle] in Hh; case_guards Hh;
        injection Hh as <-; try exact Hq.
      now destruct (applyRand_state (startNewGame (state w)) w) as (_ & -> & _). }
    unfold useEffect. destruct (deps_changed (state w) (state w1)) eqn:Hd;
      [now apply new_game_orderly|].
    apply deps_changed_false_iff in Hd as (HN & _).
    destruct e; try discriminate He; cbn [handle] in Hh; case_guards Hh;
      injection Hh as <-;
      try (unfold orderly_inv in *; cbn in *; rewrite <- ?HN;
           split; [exact Hlen|]; split; [exact Hfr|]; left; now split).
    now apply new_game_orderly.
Qed.

(** X17. Orderly play keeps the game consistent.  When every event comes
    from a control that is on screen and enabled, and none of the controls
    that can start a new game is used while the dice are rolling, then there
    are always exactly [numDice] dice, every frozen id is the id of a die
    on screen, at most one roll is pending, and the rolling flag is up
    exactly while a roll is pending; with the flag down the score is the
    sum of the faces on screen. *)
Theorem orderly_play (g : Rng) (es : list Event) (w : World) :
  run_if orderly (mount g) es = Some w ->
  length (dice (state w)) = numDice (state w)
  /\ (forall i, i ∈ frozenIds (state w) -> i ∈ map id (dice (state w)))
  /\ (isRolling (state w) = false ->
      timers w = ∅ /\ score (state w) = sum_of_faces (dice (state w)))
  /\ (isRolling (state w) = true ->
      exists t roll, timers w = {[t := roll]}
                     /\ roll_frozenIds roll = frozenIds (state w)).
Proof.
  intros Hrun.
  assert (Hr : reachable w) by (exists g, es; now apply (run_if_run orderly)).
  assert (Hinv : orderly_inv w).
  { assert (H0 : orderly_inv (mount g))
      by (apply (new_game_orderly (mkWorld initialState ∅ 0 g)); reflexivity).
    pose proof (reachable_mount g) as Hr0.
    revert Hrun H0 Hr0. generalize (mount g). clear Hr.
    induction es as [|e es IH]; intros w0 Hrun H0 Hr0.
    - now injection Hrun as <-.
    - cbn [run_if] in Hrun. destruct (orderly w0 e) eqn:Hok; [|discriminate].
      destruct (step w0 e) as [w1|] eqn:Hstep; [|discriminate].
      apply (IH w1 Hrun).
      + eapply orderly_step; [|exact H0|exact Hok|exact Hstep].
        now apply reachable_world_well_formed.
      + eapply reachable_step; eassumption. }
  destruct Hinv as (Hlen & Hfr & Hroll).
  destruct (reachable_world_well_formed w Hr) as ((_ & Hids & _) & _).
  split; [exact Hlen|]. split; [|split].
  - intros i Hi. rewrite Hids. apply list_elem_of_In, in_seq.
    specialize (Hfr i Hi). lia.
  - intros Hnr. destruct Hroll as [[_ Hq]|[Hr' _]]; [|congruence].
    split; [exact Hq|]. now apply reachable_settled.
  - intros Hyes. destruct Hroll as [[Hr' _]|(_ & t & roll & Hq & _ & _ & HF)];
      [congruence|]. now exists t, roll.
Qed.

Lemma orderly_play_witness :
  match run_if orderly (mount sample_rng)
          [ClickRoll; IntervalFires 0; TimeoutFires 0; ClickDie 1; SelectNumDice 3;
           ClickRoll] with
  | Some w => length (dice (state w)) = 3%nat /\ isRolling (state w) = true
  | None => False
  end.
Proof.
  destruct (run_if orderly (mount sample_rng) _) as [w|] eqn:Hrun;
    [|vm_compute in Hrun; discriminate Hrun].
  destruct (orderly_play _ _ _ Hrun) as (Hlen & _).
  rewrite Hlen. vm_compute in Hrun. injection Hrun as <-. split; reflexivity.
Defined.

(** ** Counting the rolls *)

Lemma run_rolls_counted (es : list Event) :
  forall w w',
    Forall (fun e => in_game e = true) es -> run w es = Some w' ->
    match maxRolls (state w) with
    | JS.Infinity =>
        currentRoll (state w') = (currentRoll (state w) + count_rolls es)%nat
    | JS.Int m =>
        Z.of_nat (currentRoll (state w)) <= m ->
        Z.of_nat (currentRoll (state w'))
        = Z.min (Z.of_nat (currentRoll (state w) + count_rolls es)) m
    | _ => True
    end.
Proof.
  induction es as [|e es IH]; intros w w' Hes Hrun.
  - injection Hrun as <-. cbn [count_rolls]. rewrite Nat.add_0_r.
    destruct (maxRolls (state w)); trivial. lia.
  - cbn [run] in Hrun. destruct (step w e) as [w1|] eqn:Hstep; [|discriminate].
    apply Forall_cons in Hes as [He Hes].
    specialize (IH w1 w' Hes Hrun).
    apply step_in_game in Hstep; [|exact He].
    destruct (handle_in_game w w1 e He Hstep) as (_ & _ & _ & _ & HM & HC).
    rewrite HM in IH.
    destruct e; try discriminate He;
      try (cbn [count_rolls]; rewrite HC in IH by discriminate; exact IH).
    clear HC. cbn [handle] in Hstep. injection Hstep as <-.
    cbn [count_rolls]. unfold rollDice in IH.
    destruct (maxRolls (state w)) as [| | |m| |neg q d f] eqn:Hm; trivial.
    + cbn [JS.ge] in IH. cbn in IH. rewrite IH. lia.
    + cbn [JS.ge] in IH. destruct (Z.leb_spec m (Z.of_nat (currentRoll (state w))))
        as [Hle|Hgt]; cbn in IH; intros Hc.
      * specialize (IH Hc). lia.
      * rewrite IH by lia. lia.
Qed.

(** X18. The counter counts the clicks on the roll button up to the limit.
    Along the events of a game in progress, with an unbounded limit the
    counter grows by one per click; with a limit [m] that it has not
    passed it grows by one per click until it is [m] and then stays: it
    is the smaller of [m] and the number of clicks added to where it
    started. *)
Theorem rolls_counted (w w' : World) (es : list Event) :
  Forall (fun e => in_game e = true) es ->
  run w es = Some w' ->
  (maxRolls (state w) = JS.Infinity ->
   currentRoll (state w') = (currentRoll (state w) + count_rolls es)%nat)
  /\ (forall m, maxRolls (state w) = JS.Int m ->
        Z.of_nat (currentRoll (state w)) <= m ->
        Z.of_nat (currentRoll (state w'))
        = Z.min (Z.of_nat (currentRoll (state w) + count_rolls es)) m).
Proof.
  intros Hes Hrun. pose proof (run_rolls_counted es w w' Hes Hrun) as H.
  split.
  - intros Hm. now rewrite Hm in H.
  - intros m Hm. now rewrite Hm in H.
Qed.

Lemma rolls_counted_witness :
  match run (mount sample_rng) [ToggleOptions; ToggleLimit] with
  | Some w =>
      match run w [ClickRoll; TimeoutFires 0; ClickRoll; TimeoutFires 1; ClickRoll;
                   TimeoutFires 2; ClickRoll; ClickRoll] with
      | Some w' => currentRoll (state w') = 3%nat
      | None => False
      end
  | None => False
  end.
Proof.
  destruct (run (mount sample_rng) _) as [w|] eqn:Hrun;
    [|vm_compute in Hrun; discriminate Hrun].
  assert (Hw : maxRolls (state w) = JS.Int 3 /\ currentRoll (state w) = 0%nat)
    by (vm_compute in Hrun; injection Hrun as <-; split; reflexivity).
  destruct Hw as [Hm Hc].
  destruct (run w _) as [w'|] eqn:Hrun';
    [|vm_compute in Hrun; injection Hrun as <-; vm_compute in Hrun';
      discriminate Hrun'].
  match type of Hrun' with
  | run _ ?es = _ =>
      assert (Hes : Forall (fun e => in_game e = true) es) by (repeat constructor);
      destruct (rolls_counted w w' es Hes Hrun') as [_ Hlim]
  end.
  specialize (Hlim 3 Hm). rewrite Hc in Hlim. cbn in Hlim. lia.
Defined.
